(** * Speech services: text normalisation, audio enhancement, guarded inference

    A shallow embedding of the Python speech servers
    ([soft_female_tts_server.py], [upgraded_tts_server.py],
    [local_tts_server_optimized.py], [local_stt_server.py],
    [local_stt_server_optimized.py]) and the properties their design
    document states about them.

    - Python [str] values are lists of Unicode code points.
    - numpy arrays of samples are lists over an arithmetic interface with
      two instances: IEEE binary64 (what numpy executes after [sosfilt])
      and exact rationals (the real-number reading of the same formulas).
    - The model, [scipy.signal] and [np.tanh] are collaborators and enter as
      parameters.
    - The GPU housekeeping calls are recorded in an event trace. *)

From Stdlib Require Import Ascii String.
From Stdlib Require Import List ZArith NArith QArith Qabs Floats Uint63.
From Stdlib Require Import Bool Lia Lqa Arith DecimalN DecimalPos.
Import ListNotations.
Set Warnings "-inexact-float".
Close Scope Q_scope.
Open Scope nat_scope.

(* ================================================================= *)
(** ** Python strings and the [re] / [str] operations the servers use *)

Module Text.

Definition char := N.
Definition str := list char.

(** String literals of the source are written in UTF-8 and decoded to code
    points. *)
Fixpoint utf8_decode (bs : list N) (pending : nat) (acc : N) : str :=
  match bs with
  | [] => []
  | b :: bs' =>
      match pending with
      | O =>
          if (b <? 128)%N then b :: utf8_decode bs' 0 0%N
          else if (b <? 224)%N then utf8_decode bs' 1 (N.land b 31)
          else if (b <? 240)%N then utf8_decode bs' 2 (N.land b 15)
          else utf8_decode bs' 3 (N.land b 7)
      | S O => (acc * 64 + N.land b 63)%N :: utf8_decode bs' 0 0%N
      | S k => utf8_decode bs' k (acc * 64 + N.land b 63)%N
      end
  end.

Definition lit (s : string) : str :=
  utf8_decode (map N_of_ascii (list_ascii_of_string s)) 0 0%N.

Definition SPACE : char := 32%N.
Definition COMMA : char := 44%N.
Definition DOT : char := 46%N.
Definition BANG : char := 33%N.
Definition QUESTION : char := 63%N.
Definition SEMICOLON : char := 59%N.
Definition COLON : char := 58%N.
Definition HYPHEN : char := 45%N.
Definition UNDERSCORE : char := 95%N.

(** The Unicode tables behind [str.isspace] / [\s], [\d] with the value
    [int] gives a digit, and [str.isalnum]. *)
Record charclass := {
  isspace : char -> bool;
  isdecimal : char -> bool;
  digit_value : char -> N;
  isalnum : char -> bool
}.

(** [\w]: alphanumeric (decimal digits included) or underscore. *)
Definition isword (cc : charclass) (c : char) : bool :=
  isdecimal cc c || isalnum cc c || (c =? UNDERSCORE)%N.

Definition in_range (lo hi c : N) : bool := ((lo <=? c) && (c <=? hi))%N.

(** CPython's tables: whitespace is the full [str.isspace] list; decimal
    digits and letters are those of U+0000-U+007F and U+0400-U+052F, the
    blocks the texts below are written in. *)
Definition basic_isspace (c : char) : bool :=
  in_range 9 13 c || in_range 28 32 c || (c =? 133)%N || (c =? 160)%N
  || (c =? 5760)%N || in_range 8192 8202 c || in_range 8232 8233 c
  || (c =? 8239)%N || (c =? 8287)%N || (c =? 12288)%N.

Definition basic : charclass := {|
  isspace := basic_isspace;
  isdecimal := in_range 48 57;
  digit_value c := (c - 48)%N;
  isalnum c := in_range 48 57 c || in_range 65 90 c || in_range 97 122 c
               || in_range 1024 1153 c || in_range 1162 1327 c
|}.

Section Operations.
Variable cc : charclass.

(** [str.strip()]. *)
Fixpoint lstrip (s : str) : str :=
  match s with
  | c :: s' => if isspace cc c then lstrip s' else s
  | [] => []
  end.

Definition rstrip (s : str) : str := rev (lstrip (rev s)).

Definition strip (s : str) : str := rstrip (lstrip s).

(** [re.sub(r'\s+', ' ', s)]: [in_ws] tells that the previous character
    belonged to the run being replaced. *)
Fixpoint collapse_from (in_ws : bool) (s : str) : str :=
  match s with
  | [] => []
  | c :: s' =>
      if isspace cc c
      then if in_ws then collapse_from true s'
           else SPACE :: collapse_from true s'
      else c :: collapse_from false s'
  end.

Definition collapse_whitespace (s : str) : str := collapse_from false s.

(** [int(m.group())] on a run of decimal digits.  CPython's optional
    limit on the length of a converted digit string is not modelled. *)
Definition int_of_digits (ds : str) : N :=
  fold_left (fun acc c => (10 * acc + digit_value cc c)%N) ds 0%N.

(** [re.sub(r'\b(\d+)\b', lambda m: convert(int(m.group())), s)].

    [prev_word] tells whether the previous character is a word character;
    [run] holds, reversed, the digits of a run that began at a word
    boundary.  The run is a match when it ends at a non-word character or
    at the end of the text; followed by a word character it is no match
    and neither is any of its suffixes, which start between two digits. *)
Fixpoint sub_numbers_from (convert : N -> str) (prev_word : bool)
    (run : option str) (s : str) : str :=
  match s with
  | [] =>
      match run with
      | Some r => convert (int_of_digits (rev r))
      | None => []
      end
  | c :: s' =>
      match run with
      | Some r =>
          if isdecimal cc c
          then sub_numbers_from convert true (Some (c :: r)) s'
          else if isword cc c
          then rev r ++ c :: sub_numbers_from convert true None s'
          else convert (int_of_digits (rev r))
               ++ c :: sub_numbers_from convert false None s'
      | None =>
          if isdecimal cc c && negb prev_word
          then sub_numbers_from convert true (Some [c]) s'
          else c :: sub_numbers_from convert (isword cc c) None s'
      end
  end.

Definition sub_numbers (convert : N -> str) (s : str) : str :=
  sub_numbers_from convert false None s.

(** [re.sub(r'[^\w\s\.,!?;:-]', '', s)]. *)
Definition keeps (c : char) : bool :=
  isword cc c || isspace cc c
  || (c =? DOT)%N || (c =? COMMA)%N || (c =? BANG)%N || (c =? QUESTION)%N
  || (c =? SEMICOLON)%N || (c =? COLON)%N || (c =? HYPHEN)%N.

Definition remove_other_punctuation (s : str) : str := filter keeps s.

(** [re.sub(r'([P])\s*', r'\1 ', s)] for a set [P] of punctuation marks:
    [skipping] tells that the whitespace after a mark is being consumed. *)
Fixpoint pause_after_from (P : char -> bool) (skipping : bool) (s : str)
  : str :=
  match s with
  | [] => []
  | c :: s' =>
      if skipping && isspace cc c then pause_after_from P true s'
      else if P c then c :: SPACE :: pause_after_from P true s'
      else c :: pause_after_from P false s'
  end.

Definition pause_after (P : char -> bool) (s : str) : str :=
  pause_after_from P false s.

(** Whitespace within policy: no whitespace at either end, and between
    words single spaces only.  [after_space] tells that the previous
    character was a space (or that the text starts here). *)
Fixpoint tidy_from (after_space : bool) (s : str) : bool :=
  match s with
  | [] => negb after_space
  | c :: s' =>
      if isspace cc c
      then negb after_space && (c =? SPACE)%N && tidy_from true s'
      else tidy_from false s'
  end.

Definition tidy (s : str) : bool :=
  match s with
  | [] => true
  | _ :: _ => tidy_from true s
  end.

End Operations.

(** What the statements below use of the Unicode tables: the space is
    whitespace, the ASCII digits are decimal digits with their value, a
    decimal digit is no whitespace, and the Russian lower-case letters
    are letters. *)
Record cc_ok (cc : charclass) : Prop := {
  ok_space : isspace cc SPACE = true;
  ok_ascii_digit :
    forall c, in_range 48 57 c = true ->
              isdecimal cc c = true /\ digit_value cc c = (c - 48)%N;
  ok_decimal_nonspace :
    forall c, isdecimal cc c = true -> isspace cc c = false;
  ok_cyrillic :
    forall c, in_range 1072 1103 c = true ->
              isdecimal cc c = false /\ isalnum cc c = true
              /\ isspace cc c = false
}.

(** The marks after which the soft-voice server inserts a space. *)
Definition is_pause (c : char) : bool :=
  (c =? COMMA)%N || (c =? DOT)%N || (c =? BANG)%N || (c =? QUESTION)%N.

Definition no_pause (s : str) : Prop :=
  Forall (fun c => is_pause c = false) s.

(** What the statements below use of a number converter: it renders
    every number as a non-empty text free of whitespace and pause marks,
    made either of letters or of digits that convert back to the same
    rendering. *)
Definition conversion_ok (cc : charclass) (convert : N -> str) : Prop :=
  forall v,
    convert v <> []
    /\ Forall (fun c => isspace cc c = false) (convert v)
    /\ no_pause (convert v)
    /\ (Forall (fun c => isdecimal cc c = false /\ isword cc c = true)
               (convert v)
        \/ (Forall (fun c => isdecimal cc c = true) (convert v)
            /\ convert (int_of_digits cc (convert v)) = convert v)).

(** [s.startswith(p)]. *)
Fixpoint starts_with (p s : str) : bool :=
  match p, s with
  | [], _ => true
  | a :: p', b :: s' => (a =? b)%N && starts_with p' s'
  | _ :: _, [] => false
  end.

(** [s.replace(old, new)] for a non-empty [old]: leftmost occurrences, not
    overlapping.  [skip] counts the characters of a replaced occurrence
    still to pass over. *)
Fixpoint replace_from (old new : str) (skip : nat) (s : str) : str :=
  match s with
  | [] => []
  | c :: s' =>
      match skip with
      | S k => replace_from old new k s'
      | O =>
          if starts_with old s
          then new ++ replace_from old new (length old - 1) s'
          else c :: replace_from old new 0 s'
      end
  end.

Definition replace (old new : str) (s : str) : str :=
  replace_from old new 0 s.

(** [old in s]. *)
Fixpoint occurs (old s : str) : bool :=
  starts_with old s ||
  match s with
  | [] => false
  | _ :: s' => occurs old s'
  end.

(** [a] and [b] differ at a position both have: neither can begin a text
    the other begins. *)
Fixpoint clash (a b : str) : bool :=
  match a, b with
  | x :: a', y :: b' => negb (x =? y)%N || clash a' b'
  | _, _ => false
  end.

(** Every non-empty suffix of [k] clashes with [u]. *)
Fixpoint clash_all (k u : str) : bool :=
  match k with
  | [] => true
  | _ :: k' => clash k u && clash_all k' u
  end.

(** [k] clashes with every non-empty suffix of [u]. *)
Fixpoint clash_suffixes (k u : str) : bool :=
  match u with
  | [] => true
  | _ :: u' => clash k u && clash_suffixes k u'
  end.

(** [str(n)] for a non-negative integer. *)
Fixpoint uint_chars (u : Decimal.uint) : str :=
  match u with
  | Decimal.Nil => []
  | Decimal.D0 u' => 48%N :: uint_chars u'
  | Decimal.D1 u' => 49%N :: uint_chars u'
  | Decimal.D2 u' => 50%N :: uint_chars u'
  | Decimal.D3 u' => 51%N :: uint_chars u'
  | Decimal.D4 u' => 52%N :: uint_chars u'
  | Decimal.D5 u' => 53%N :: uint_chars u'
  | Decimal.D6 u' => 54%N :: uint_chars u'
  | Decimal.D7 u' => 55%N :: uint_chars u'
  | Decimal.D8 u' => 56%N :: uint_chars u'
  | Decimal.D9 u' => 57%N :: uint_chars u'
  end.

Definition str_of_N (n : N) : str := uint_chars (N.to_uint n).

(** [re.split(r'[P]+', s)]: the pieces between maximal runs of marks. *)
Fixpoint split_runs_from (P : char -> bool) (in_sep : bool) (cur : str)
    (s : str) : list str :=
  match s with
  | [] => [rev cur]
  | c :: s' =>
      if P c
      then if in_sep then split_runs_from P true cur s'
           else rev cur :: split_runs_from P true [] s'
      else split_runs_from P false (c :: cur) s'
  end.

Definition split_runs (P : char -> bool) (s : str) : list str :=
  split_runs_from P false [] s.

(** [sep.join(pieces)]. *)
Fixpoint join (sep : str) (pieces : list str) : str :=
  match pieces with
  | [] => []
  | [p] => p
  | p :: rest => p ++ sep ++ join sep rest
  end.

Fixpoint drop_until_space (s : str) : option str :=
  match s with
  | [] => None
  | c :: s' => if (c =? SPACE)%N then Some s' else drop_until_space s'
  end.

(** [s.rsplit(' ', 1)[0]]: what precedes the last space, or all of [s]
    when it has none. *)
Definition rsplit_space_head (s : str) : str :=
  match drop_until_space (rev s) with
  | Some before => rev before
  | None => s
  end.

(** The character class of the last, and of the first, character. *)
Fixpoint ends_in (P : char -> bool) (s : str) : bool :=
  match s with
  | [] => false
  | [c] => P c
  | _ :: s' => ends_in P s'
  end.

Definition begins_in (P : char -> bool) (s : str) : bool :=
  match s with
  | [] => false
  | c :: _ => P c
  end.


Definition no_space (s : str) : Prop :=
  Forall (fun c => (c =? SPACE)%N = false) s.

Definition is_sentence_end (c : char) : bool :=
  (c =? DOT)%N || (c =? BANG)%N || (c =? QUESTION)%N.

Definition is_clause_mark (c : char) : bool :=
  (c =? COMMA)%N || (c =? SEMICOLON)%N || (c =? COLON)%N.

End Text.

Import Text.

(* ================================================================= *)
(** ** The text preprocessors *)

(** The two nested abbreviations, their neighbour in the tables, and
    what they expand to. *)
Definition T_D : str := Eval vm_compute in lit "т.д.".
Definition TAK_DALEE : str := Eval vm_compute in lit "так далее".
Definition T_P : str := Eval vm_compute in lit "т.п.".
Definition TOMU_PODOBNOE : str := Eval vm_compute in lit "тому подобное".
Definition I_T_D : str := Eval vm_compute in lit "и т.д.".
Definition I_TAK_DALEE : str := Eval vm_compute in lit "и так далее".

(** [table.get(num, default)] on a dict written as its list of items. *)
Fixpoint dict_get (table : list (N * str)) (num : N) (default : str) : str :=
  match table with
  | [] => default
  | (k, v) :: rest => if (k =? num)%N then v else dict_get rest num default
  end.

(** Successive [text = text.replace(old, new)] statements, one for each
    entry of [table] in its order. *)
Definition replace_all (table : list (str * str)) (text : str) : str :=
  fold_left (fun t entry => replace (fst entry) (snd entry) t) table text.

(** The expansion as the design document words it: the entries are
    applied longest key first, keys of equal length in their table
    order. *)
Fixpoint insert_by_length (entry : str * str) (table : list (str * str))
  : list (str * str) :=
  match table with
  | [] => [entry]
  | e :: rest =>
      if length (fst e) <=? length (fst entry)
      then entry :: table
      else e :: insert_by_length entry rest
  end.

Definition longest_first (table : list (str * str)) : list (str * str) :=
  fold_right insert_by_length [] table.

Definition expand_longest_first (table : list (str * str)) (text : str)
  : str :=
  replace_all (longest_first table) text.

(** [soft_female_tts_server.py]. *)
Module SoftFemale.

Definition numbers : list (N * str) := Eval vm_compute in
  [ (0, lit "ноль"); (1, lit "один"); (2, lit "два"); (3, lit "три");
    (4, lit "четыре"); (5, lit "пять"); (6, lit "шесть"); (7, lit "семь");
    (8, lit "восемь"); (9, lit "девять"); (10, lit "десять");
    (11, lit "одиннадцать"); (12, lit "двенадцать");
    (13, lit "тринадцать"); (14, lit "четырнадцать");
    (15, lit "пятнадцать"); (16, lit "шестнадцать");
    (17, lit "семнадцать"); (18, lit "восемнадцать");
    (19, lit "девятнадцать"); (20, lit "двадцать") ]%N.

(** [numbers.get(num, str(num))]. *)
Definition convert_number_to_words (num : N) : str :=
  dict_get numbers num (str_of_N num).

Definition abbreviations : list (str * str) := Eval vm_compute in
  [ (lit "т.д.", lit "так далее");
    (lit "т.п.", lit "тому подобное");
    (lit "и т.д.", lit "и так далее");
    (lit "т.е.", lit "то есть");
    (lit "др.", lit "другой");
    (lit "г.", lit "год") ].

Definition pauses : list (str * str) :=
  [ ([COMMA], [COMMA; SPACE]); ([DOT], [DOT; SPACE]);
    ([BANG], [BANG; SPACE]); ([QUESTION], [QUESTION; SPACE]) ].

Definition add_pauses (text : str) : str := replace_all pauses text.

Definition expand_abbreviations (text : str) : str :=
  replace_all abbreviations text.

Definition preprocess_russian_text (cc : charclass) (text : str) : str :=
  let text := collapse_whitespace cc (strip cc text) in
  let text := add_pauses text in
  let text := expand_abbreviations text in
  sub_numbers cc convert_number_to_words text.

End SoftFemale.

(** [upgraded_tts_server.py]. *)
Module Upgraded.

Definition nol : str := Eval vm_compute in lit "ноль".
Definition odin : str := Eval vm_compute in lit "один".
Definition dva : str := Eval vm_compute in lit "два".
Definition tri : str := Eval vm_compute in lit "три".
Definition chetyre : str := Eval vm_compute in lit "четыре".
Definition pyat : str := Eval vm_compute in lit "пять".
Definition shest : str := Eval vm_compute in lit "шесть".
Definition sem : str := Eval vm_compute in lit "семь".
Definition vosem : str := Eval vm_compute in lit "восемь".
Definition devyat : str := Eval vm_compute in lit "девять".
Definition desyat : str := Eval vm_compute in lit "десять".

Definition convert_number_to_words (num : N) : str :=
  if (num =? 0)%N then nol
  else if (num =? 1)%N then odin
  else if (num =? 2)%N then dva
  else if (num =? 3)%N then tri
  else if (num =? 4)%N then chetyre
  else if (num =? 5)%N then pyat
  else if (num =? 6)%N then shest
  else if (num =? 7)%N then sem
  else if (num =? 8)%N then vosem
  else if (num =? 9)%N then devyat
  else if (num =? 10)%N then desyat
  else str_of_N num.

Definition abbreviations : list (str * str) := Eval vm_compute in
  [ (lit "т.д.", lit "так далее");
    (lit "т.п.", lit "тому подобное");
    (lit "и т.д.", lit "и так далее");
    (lit "т.е.", lit "то есть");
    (lit "др.", lit "другой") ].

Definition expand_abbreviations (text : str) : str :=
  replace_all abbreviations text.

Definition preprocess_russian_text (cc : charclass) (text : str) : str :=
  let text := collapse_whitespace cc (strip cc text) in
  let text := expand_abbreviations text in
  sub_numbers cc convert_number_to_words text.

End Upgraded.

(** [local_tts_server_optimized.py]. *)
Module Optimized.

Definition max_length : nat := 500.

Definition preprocess_russian_text (cc : charclass) (text : str) : str :=
  let text := remove_other_punctuation cc text in
  let text := pause_after cc is_sentence_end text in
  let text := pause_after cc is_clause_mark text in
  if Nat.ltb max_length (length text) then
    let sentences := split_runs is_sentence_end text in
    let text := join [DOT; SPACE] (firstn 3 sentences) in
    if Nat.ltb max_length (length text)
    then rsplit_space_head (firstn max_length text)
    else text
  else text.

(** A cut falls inside a word when the last character kept and the first
    one dropped are both word characters. *)
Definition cut_mid_word (cc : charclass) (text result : str) : Prop :=
  exists kept a b dropped,
    result = kept ++ [a] /\ text = result ++ b :: dropped
    /\ isword cc a = true /\ isword cc b = true.

End Optimized.

(** [local_tts_server_old.py]. *)
Module Old.

Definition ellipsis : str := [DOT; DOT; DOT].

(** Lines 33-49: the same cleaning as the optimised server, then
    [re.sub(r'\s+', ' ', text).strip()] and a cut at 500 characters with
    "..." appended. *)
Definition preprocess_russian_text (cc : charclass) (text : str) : str :=
  let text := remove_other_punctuation cc text in
  let text := pause_after cc is_sentence_end text in
  let text := pause_after cc is_clause_mark text in
  let text := strip cc (collapse_whitespace cc text) in
  if Nat.ltb 500 (length text) then firstn 500 text ++ ellipsis else text.

End Old.

(** A text is settled for a set [M] of marks when every mark is followed
    by one space and no further whitespace.  [after_mark] tells that a
    mark and its space have just been read. *)
Fixpoint spaced_from (cc : charclass) (M : char -> bool) (after_mark : bool)
    (s : str) : bool :=
  match s with
  | [] => true
  | c :: s' =>
      if after_mark && isspace cc c then false
      else if M c then
        match s' with
        | x :: s'' => (x =? SPACE)%N && spaced_from cc M true s''
        | [] => false
        end
      else spaced_from cc M false s'
  end.

(** What the statements on pause insertion use of the Unicode tables:
    the space is whitespace and the six marks are not. *)
Record marks_ok (cc : charclass) : Prop := {
  marks_space : isspace cc SPACE = true;
  marks_nonspace :
    forall c, is_sentence_end c || is_clause_mark c = true ->
              isspace cc c = false
}.

(** Every full stop is followed by a space. *)
Fixpoint stops_spaced (s : str) : bool :=
  match s with
  | [] => true
  | c :: s' =>
      (if (c =? DOT)%N
       then match s' with
            | x :: _ => (x =? SPACE)%N
            | [] => false
            end
       else true) && stops_spaced s'
  end.

(** A text of whitespace only, the empty text included. *)
Definition blank (cc : charclass) (s : str) : Prop :=
  Forall (fun c => isspace cc c = true) s.




(* ================================================================= *)
(** ** Guarded inference ([local_stt_server_optimized.py],
       [local_tts_server_optimized.py]) *)

Module Guard.

Inductive model_id := Base | Tiny.

(** The calls whose order matters. *)
Inductive event :=
| EmptyCache                 (* torch.cuda.empty_cache() *)
| GcCollect                  (* gc.collect() *)
| SetMemoryFraction (f : Q)  (* set_per_process_memory_fraction(f) *)
| LoadModel (m : model_id)   (* whisper.load_model(m) *)
| ModelCall (m : model_id) (language : option str).
                             (* model.transcribe / model.generate_speech *)

(** What a call to the model does. *)
Inductive outcome (T : Type) : Type :=
| Returns (v : T)
| OutOfMemoryError           (* torch.cuda.OutOfMemoryError *)
| Raises (msg : str).        (* any other exception *)
Arguments Returns {T} v.
Arguments OutOfMemoryError {T}.
Arguments Raises {T} msg.

(** What the guarded functions raise. *)
Inductive raised :=
| GpuMemoryExhausted         (* Exception("GPU memory exhausted ...") *)
| Reraised (msg : str)       (* the model's own exception, re-raised *)
| UncaughtOutOfMemory.       (* an OutOfMemoryError no handler covers *)

Record state := {
  cuda_available : bool;
  model_name : model_id;
  calls : nat;
  trace : list event
}.

Definition log (e : event) (st : state) : state :=
  {| cuda_available := cuda_available st;
     model_name := model_name st;
     calls := calls st;
     trace := trace st ++ [e] |}.

Definition count_call (st : state) : state :=
  {| cuda_available := cuda_available st;
     model_name := model_name st;
     calls := S (calls st);
     trace := trace st |}.

Definition set_model_name (m : model_id) (st : state) : state :=
  {| cuda_available := cuda_available st;
     model_name := m;
     calls := calls st;
     trace := trace st |}.

(** The [finally] block of [gpu_memory_manager]. *)
Definition sweep (st : state) : state :=
  log GcCollect (if cuda_available st then log EmptyCache st else st).

Definition sweep_events (cuda : bool) : list event :=
  (if cuda then [EmptyCache] else []) ++ [GcCollect].

(** [with gpu_memory_manager(): body]: the body runs, then the [finally]
    block, whether the body returned or raised. *)
Definition gpu_memory_manager {T} (body : state -> (T + raised) * state)
    (st : state) : (T + raised) * state :=
  let (r, st') := body st in (r, sweep st').

(** The [except torch.cuda.OutOfMemoryError] handler. *)
Definition emergency_cleanup (st : state) : state :=
  log GcCollect (log EmptyCache st).

(** The [try] statement inside [transcribe_audio] and [generate_speech]:
    [model k] is what the collaborator does on the call that follows [k]
    earlier ones. *)
Definition guarded_call {T U} (model : nat -> outcome T) (post : T -> U)
    (language : option str) (st : state) : (U + raised) * state :=
  let st1 := count_call (log (ModelCall (model_name st) language) st) in
  match model (calls st) with
  | Returns v => (inl (post v), st1)
  | OutOfMemoryError => (inr GpuMemoryExhausted, emergency_cleanup st1)
  | Raises msg => (inr (Reraised msg), st1)
  end.

Definition default_language : str := Eval vm_compute in lit "ru".

(** [local_stt_server_optimized.py], lines 59-84. *)
Definition transcribe_audio (cc : charclass) (model : nat -> outcome str)
    (language : str) (st : state) : (str + raised) * state :=
  gpu_memory_manager (guarded_call model (strip cc) (Some language)) st.

(** [local_tts_server_optimized.py], lines 102-137: the model receives
    the preprocessed text. *)
Definition generate_speech {W} (cc : charclass)
    (model : str -> nat -> outcome W) (text : str) (st : state)
  : (W + raised) * state :=
  gpu_memory_manager
    (guarded_call (model (Optimized.preprocess_russian_text cc text))
                  (fun speech => speech) None) st.

(** [local_stt_server_optimized.py], lines 25-47, run once when the
    module is imported: the memory fraction is capped, the base model is
    loaded, and the tiny model in its place if that load runs out of
    memory. *)
Definition load_whisper (load : model_id -> outcome unit) (st : state)
  : (unit + raised) * state :=
  let st0 :=
    if cuda_available st
    then log EmptyCache (log (SetMemoryFraction (4 # 10)) st) else st in
  let st1 := log (LoadModel Base) st0 in
  let loaded m s :=
    (inl tt, set_model_name m (if cuda_available s then log EmptyCache s
                               else s)) in
  match load Base with
  | Returns _ => loaded Base st1
  | OutOfMemoryError =>
      let st2 := log (LoadModel Tiny) (log EmptyCache st1) in
      match load Tiny with
      | Returns _ => loaded Tiny st2
      | OutOfMemoryError => (inr UncaughtOutOfMemory, st2)
      | Raises msg => (inr (Reraised msg), st2)
      end
  | Raises msg => (inr (Reraised msg), st1)
  end.

(** The endpoint of [local_stt_server_optimized.py], lines 108-118:
    [language = request.form.get('language', 'ru')], handed on as it
    is. *)
Definition transcribe_endpoint (cc : charclass) (model : nat -> outcome str)
    (form_language : option str) (st : state) : (str + raised) * state :=
  let language :=
    match form_language with
    | Some l => l
    | None => default_language
    end in
  transcribe_audio cc model language st.

(** What the design document asks of one invocation that meets resource
    exhaustion while the primary model is active: a second call, served
    by the fallback. *)
Definition retried_on_fallback (before after : state) : Prop :=
  calls after = calls before + 2 /\ model_name after = Tiny.

(** A service that loaded the base model on a GPU, and a collaborator
    that runs out of memory on its first call only. *)
Definition fresh : state :=
  {| cuda_available := true; model_name := Base; calls := 0; trace := [] |}.

Definition ok_text : str := Eval vm_compute in lit " ok ".

Definition oom_once (k : nat) : outcome str :=
  match k with
  | O => OutOfMemoryError
  | S _ => Returns ok_text
  end.

Definition ru : str := default_language.
Definition auto : str := Eval vm_compute in lit "auto".

(** The models loaded, in order, according to a trace. *)
Definition loads (tr : list event) : list model_id :=
  flat_map (fun e => match e with LoadModel m => [m] | _ => [] end) tr.

(** A collaborator that returns the same transcript on every call. *)
Definition always_ok (k : nat) : outcome str := Returns ok_text.

Definition always_fails (k : nat) : outcome str := Raises ok_text.

End Guard.

Import Guard.

(* ================================================================= *)
(** ** The transcription endpoint of [local_stt_server.py] *)

Module Stt.

Definition language_map : list (str * option str) := Eval vm_compute in
  [ (lit "en", Some (lit "english"));
    (lit "ru", Some (lit "russian"));
    (lit "uk", Some (lit "ukrainian"));
    (lit "auto", None) ].

Fixpoint str_eqb (a b : str) : bool :=
  match a, b with
  | [], [] => true
  | x :: a', y :: b' => (x =? y)%N && str_eqb a' b'
  | _, _ => false
  end.

Fixpoint lookup (key : str) (table : list (str * option str))
  : option (option str) :=
  match table with
  | [] => None
  | (k, v) :: rest => if str_eqb k key then Some v else lookup key rest
  end.

(** Lines 36-47: [language = request.form.get('language', None)];
    [if language in language_map: language = language_map[language]]. *)
Definition mapped_language (form_language : option str) : option str :=
  match form_language with
  | None => None
  | Some code =>
      match lookup code language_map with
      | Some target => target
      | None => Some code
      end
  end.

Definition russian : str := Eval vm_compute in lit "russian".
Definition task_transcribe : str := Eval vm_compute in lit "transcribe".

(** The keyword arguments of [model.transcribe] that concern the
    language. *)
Record transcribe_call := {
  call_language : option str;
  call_task : str
}.

(** Lines 54-65: the call is written with [language="russian"]; the
    variable [language] computed above is not among its arguments. *)
Definition transcribe (form_language : option str) : transcribe_call :=
  let language := mapped_language form_language in
  {| call_language := Some russian;
     call_task := task_transcribe |}.

End Stt.

(* ================================================================= *)
(** ** Audio enhancement ([soft_female_tts_server.py]) *)

Module Audio.

(** The arithmetic numpy applies elementwise. *)
Class Arith (A : Type) := {
  cst  : Q -> A;
  add  : A -> A -> A;
  sub  : A -> A -> A;
  mul  : A -> A -> A;
  div  : A -> A -> A;
  absv : A -> A;
  sign : A -> A;
  gtb  : A -> A -> bool;
  maximum : A -> A -> A
}.

Definition Z2F (z : Z) : float :=
  match z with
  | Z0 => 0%float
  | Zpos _ => PrimFloat.of_uint63 (Uint63.of_Z z)
  | Zneg p => (- PrimFloat.of_uint63 (Uint63.of_Z (Zpos p)))%float
  end.

(** IEEE binary64.  A decimal literal is the correctly rounded quotient of
    its numerator and denominator; [np.max] propagates NaN. *)
#[export] Instance float_arith : Arith float := {
  cst q := (Z2F (Qnum q) / Z2F (Zpos (Qden q)))%float;
  add := PrimFloat.add;
  sub := PrimFloat.sub;
  mul := PrimFloat.mul;
  div := PrimFloat.div;
  absv := PrimFloat.abs;
  sign x := if (x <? 0)%float then (-1)%float
            else if (0 <? x)%float then 1%float
            else if PrimFloat.is_nan x then nan else 0%float;
  gtb x y := (y <? x)%float;
  maximum x y := if PrimFloat.is_nan x then x
                 else if PrimFloat.is_nan y then y
                 else if (x <? y)%float then y else x
}.

(** Exact rationals: the same formulas without rounding. *)
#[export] Instance exact_arith : Arith Q := {
  cst q := q;
  add := Qplus;
  sub := Qminus;
  mul := Qmult;
  div := Qdiv;
  absv := Qabs;
  sign x := match Qnum x with
            | Z0 => 0%Q
            | Zpos _ => 1%Q
            | Zneg _ => (-1)%Q
            end;
  gtb x y := negb (Qle_bool x y);
  maximum x y := if Qle_bool x y then y else x
}.

(** [int(x)] on a Python float: truncation toward zero. *)
Definition int_of_float (x : float) : Z :=
  match Prim2SF x with
  | S754_finite s m e =>
      let v := if (0 <=? e)%Z then Z.shiftl (Zpos m) e
               else Z.shiftr (Zpos m) (- e) in
      if s then (- v)%Z else v
  | _ => 0%Z
  end.

(** [new_length = int(len(audio) / pitch_factor)] with [pitch_factor = 1.08]. *)
Definition new_length (n : nat) : nat :=
  Z.to_nat (int_of_float (Z2F (Z.of_nat n) / 1.08)).

(** [delay_samples = int(0.02 * sample_rate)]. *)
Definition delay_samples (sample_rate : Z) : nat :=
  Z.to_nat (int_of_float (0.02 * Z2F sample_rate)).

Inductive result (T : Type) : Type :=
| Ok (v : T)
| ValueError.
Arguments Ok {T} v.
Arguments ValueError {T}.

Section Chain.
Context {A : Type} `{Arith A}.

(** [scipy.signal.resample(audio, new_length)]. *)
Variable resample : list A -> nat -> list A.
(** [scipy.signal.sosfilt(butter(6, 8000 / (sample_rate / 2)), x)]. *)
Variable sosfilt : Z -> list A -> list A.
(** [np.tanh]. *)
Variable tanh : A -> A.

Definition threshold : A := cst (6 # 10).
Definition ratio : A := cst (4 # 1).

(** One element of the [np.where] compression; [np.sign] is looked at
    above the threshold only, where the sample is not zero. *)
Definition compress1 (x : A) : A :=
  if gtb (absv x) threshold
  then mul (sign x) (add threshold (div (sub (absv x) threshold) ratio))
  else x.

Definition compress (xs : list A) : list A := map compress1 xs.

Fixpoint zip_with (f : A -> A -> A) (xs ys : list A) : list A :=
  match xs, ys with
  | x :: xs', y :: ys' => f x y :: zip_with f xs' ys'
  | _, _ => []
  end.

(** [reverb = np.copy(compressed)];
    [if len(reverb) > d: reverb[d:] += compressed[:-d] * 0.15].
    With [d = 0] the slice [compressed[:-0]] is empty and the in-place
    addition cannot broadcast. *)
Definition add_reverb (d : nat) (compressed : list A) : result (list A) :=
  if Nat.ltb d (length compressed) then
    match d with
    | O => ValueError
    | S _ =>
        Ok (firstn d compressed ++
            zip_with (fun r c => add r (mul c (cst (15 # 100))))
                     (skipn d compressed)
                     (firstn (length compressed - d) compressed))
    end
  else Ok compressed.

(** [np.max] of an array; empty arrays have no maximum. *)
Definition amax (xs : list A) : result A :=
  match xs with
  | [] => ValueError
  | x :: xs' => Ok (fold_left maximum xs' x)
  end.

(** [xs / np.max(np.abs(xs)) * target]: no test on the maximum. *)
Definition normalize_peak (target : A) (xs : list A) : result (list A) :=
  match amax (map absv xs) with
  | Ok m => Ok (map (fun x => mul (div x m) target) xs)
  | ValueError => ValueError
  end.

(** [np.tanh(xs * 1.2) * 0.8]. *)
Definition saturate (xs : list A) : list A :=
  map (fun x => mul (tanh (mul x (cst (12 # 10)))) (cst (8 # 10))) xs.

(** Lines 91-114: everything after the low-pass filter. *)
Definition after_filter (sample_rate : Z) (audio_filtered : list A)
  : result (list A) :=
  match add_reverb (delay_samples sample_rate) (compress audio_filtered) with
  | Ok reverb =>
      match normalize_peak (cst (95 # 100)) reverb with
      | Ok reverb' => Ok (saturate reverb')
      | ValueError => ValueError
      end
  | ValueError => ValueError
  end.

(** Lines 74-114.  The waveform of the model is float32 already, so
    [astype(np.float32)] copies it; what [sosfilt] returns is float64. *)
Definition enhance_voice_quality (audio : list A) (sample_rate : Z)
  : result (list A) :=
  let audio_pitched := resample audio (new_length (length audio)) in
  let audio_filtered := sosfilt sample_rate audio_pitched in
  after_filter sample_rate audio_filtered.

(** [synthesize], lines 153-157: enhancement, then
    [audio / np.max(np.abs(audio)) * 0.9]. *)
Definition synthesize_postprocess (audio : list A) : result (list A) :=
  match enhance_voice_quality audio 22050 with
  | Ok enhanced => normalize_peak (cst (9 # 10)) enhanced
  | ValueError => ValueError
  end.

End Chain.

(** Every sample lies within the ceiling, as a numpy comparison
    [abs(y) <= c] would report it. *)
Definition within (c : float) (ys : list float) : bool :=
  forallb (fun y => (PrimFloat.abs y <=? c)%float) ys.

(** Stand-ins for the collaborators, to instantiate statements at
    concrete inputs: keep the first samples, filter nothing, and a
    rational soft clip. *)
Definition decimate {A} (xs : list A) (k : nat) : list A := firstn k xs.
Definition pass_through {A} (sample_rate : Z) (xs : list A) : list A := xs.
Definition softsign_float (x : float) : float := (x / (1 + abs x))%float.
Definition softsign (x : Q) : Q := (x / (1 + Qabs x))%Q.

End Audio.

Import Audio.

(* ================================================================= *)
(** ** The HTTP handlers *)

Module Endpoint.

(** Truth value of a field of the request: absent and empty are false. *)
Definition truthy (t : option str) : bool :=
  match t with
  | Some (_ :: _) => true
  | _ => false
  end.

(** [data.get('input') or data.get('text')]. *)
Definition or_else (a b : option str) : option str :=
  if truthy a then a else b.

(** What the [except Exception] clause of a handler catches. *)
Inductive failure :=
| ModelOutOfMemory
| ModelRaised (msg : str)
| GuardRaised (e : raised)
| NumpyValueError
| FileNotFound.

(** The temporary directory, as the names of the files in it.
    [NamedTemporaryFile(delete=False)] creates a file under a name not in
    use and leaves it on disk when it is closed. *)
Definition disk := list nat.

Definition fresh_name (d : disk) : nat := S (list_max d).

Definition create_temp (d : disk) : nat * disk :=
  (fresh_name d, fresh_name d :: d).

(** [os.path.exists(name)]. *)
Definition exists_file (name : nat) (d : disk) : bool :=
  existsb (Nat.eqb name) d.

Definition remove_file (name : nat) (d : disk) : disk :=
  filter (fun f => negb (Nat.eqb f name)) d.

(** [os.unlink(name)]: raises when there is no such file. *)
Definition unlink (name : nat) (d : disk) : option disk :=
  if exists_file name d then Some (remove_file name d) else None.

(** What a text-to-speech process holds besides its model: the temporary
    files on disk, and the texts handed to the tokenizer so far. *)
Record service := {
  temp_files : disk;
  spoken : list str
}.

Inductive speech_response (A : Type) : Type :=
| Wav (file : nat) (samples : list A) (sample_rate : Z)
                                     (* 200, the file sent *)
| NoText                             (* 400 *)
| SpeechFailed (e : failure).        (* 500, str(e) *)
Arguments Wav {A} file samples sample_rate.
Arguments NoText {A}.
Arguments SpeechFailed {A} e.

(** [audio / np.max(np.abs(audio))], [upgraded_tts_server.py] line 108. *)
Definition normalize_unit {A} `{Arith A} (xs : list A) : result (list A) :=
  match amax (map absv xs) with
  | Ok m => Ok (map (fun x => div x m) xs)
  | ValueError => ValueError
  end.

(** [synthesize] of [soft_female_tts_server.py] (lines 118-174) and of
    [upgraded_tts_server.py] (lines 72-125) are the same statements
    around two calls that differ: the preprocessor of the server, and
    what is done to the waveform before it is written. *)
Section TextToSpeech.
Context {A : Type}.
Variable preprocess : str -> str.
Variable postprocess : list A -> result (list A).
(** The tokenizer and the waveform the model returns for its tokens,
    squeezed to one channel. *)
Variable model : str -> outcome (list A).

(** What follows the text check.  The file is created once the audio
    is there; writing and sending it are taken to succeed. *)
Definition speak (text : str) (sv : service)
  : speech_response A * service :=
  let text := preprocess text in
  let sv1 := {| temp_files := temp_files sv;
                spoken := spoken sv ++ [text] |} in
  match model text with
  | Returns audio =>
      match postprocess audio with
      | Ok out =>
          let (name, d) := create_temp (temp_files sv1) in
          (Wav name out 22050, {| temp_files := d; spoken := spoken sv1 |})
      | ValueError => (SpeechFailed NumpyValueError, sv1)
      end
  | OutOfMemoryError => (SpeechFailed ModelOutOfMemory, sv1)
  | Raises msg => (SpeechFailed (ModelRaised msg), sv1)
  end.

(** [input] and [text] are the fields of the JSON body or of the
    form. *)
Definition text_to_speech (input text : option str) (sv : service)
  : speech_response A * service :=
  match or_else input text with
  | Some (c :: t) => speak (c :: t) sv
  | _ => (NoText, sv)
  end.

End TextToSpeech.

Definition synthesize_soft_female {A} `{Arith A} (cc : charclass)
    (resample : list A -> nat -> list A) (sosfilt : Z -> list A -> list A)
    (tanh : A -> A) (model : str -> outcome (list A))
  : option str -> option str -> service -> speech_response A * service :=
  text_to_speech (SoftFemale.preprocess_russian_text cc)
    (synthesize_postprocess resample sosfilt tanh) model.

Definition synthesize_upgraded {A} `{Arith A} (cc : charclass)
    (model : str -> outcome (list A))
  : option str -> option str -> service -> speech_response A * service :=
  text_to_speech (Upgraded.preprocess_russian_text cc) normalize_unit model.

(** [synthesize_openai_format] and [synthesize] of
    [local_tts_server_optimized.py], lines 143-191: [field] is
    [data.get('input', '')], respectively [data.get('text', '')]; the
    WAV file is written once the speech is there, and sent, both taken
    to succeed. *)
Definition synthesize_optimized {A} (cc : charclass)
    (model : str -> nat -> outcome (list A)) (field : option str)
    (d : disk) (st : state) : speech_response A * disk * state :=
  match field with
  | Some (c :: t) =>
      match generate_speech cc model (c :: t) st with
      | (inl speech, st') =>
          let (name, d') := create_temp d in (Wav name speech 16000, d', st')
      | (inr e, st') => (SpeechFailed (GuardRaised e), d, st')
      end
  | _ => (NoText, d, st)
  end.

(** An uploaded file: its name and its bytes. *)
Record upload := {
  filename : str;
  content : list N
}.

Inductive text_response :=
| Transcript (text : str) (language : option str)   (* 200 *)
| NoAudioFile                                        (* 400 *)
| NoFileSelected                                     (* 400 *)
| TranscriptionFailed (e : failure).                 (* 500 *)

Definition unknown : str := Eval vm_compute in lit "unknown".

(** What the process of [local_stt_server.py] holds: the temporary files
    on disk and the calls made to the model. *)
Record stt_service := {
  stt_files : disk;
  stt_calls : list Stt.transcribe_call
}.

(** [transcribe] of [local_stt_server.py], lines 27-78.  The temporary
    file is unlinked after the model returned, inside the [with] block
    and outside any [finally]; [model] answers with the text and the
    language it reports, if any.  Saving the upload is taken to
    succeed. *)
Definition transcribe_plain (cc : charclass)
    (model : Stt.transcribe_call -> outcome (str * option str))
    (file : option upload) (form_language : option str) (sv : stt_service)
  : text_response * stt_service :=
  match file with
  | None => (NoAudioFile, sv)
  | Some _ =>
      let (name, d) := create_temp (stt_files sv) in
      let call := Stt.transcribe form_language in
      let sv1 := {| stt_files := d; stt_calls := stt_calls sv ++ [call] |} in
      match model call with
      | Returns (text, language) =>
          match unlink name d with
          | Some d' =>
              (Transcript (strip cc text)
                 (Some (match language with
                        | Some l => l
                        | None => unknown
                        end)),
               {| stt_files := d'; stt_calls := stt_calls sv1 |})
          | None => (TranscriptionFailed FileNotFound, sv1)
          end
      | OutOfMemoryError => (TranscriptionFailed ModelOutOfMemory, sv1)
      | Raises msg => (TranscriptionFailed (ModelRaised msg), sv1)
      end
  end.

(** The [try ... finally] of the two endpoints of
    [local_stt_server_optimized.py]: the upload is saved under a new
    name, transcribed, and the file removed if it is there, whether the
    transcription returned or raised.  Saving the upload is taken to
    succeed. *)
Definition transcribe_saved (cc : charclass) (model : nat -> outcome str)
    (form_language : option str) (d : disk) (st : state)
  : (str + raised) * disk * state :=
  let (name, d1) := create_temp d in
  let (r, st') := transcribe_endpoint cc model form_language st in
  let d2 := if exists_file name d1 then remove_file name d1 else d1 in
  (r, d2, st').

(** [transcribe], lines 97-131. *)
Definition transcribe_optimized (cc : charclass)
    (model : nat -> outcome str) (file : option upload)
    (form_language : option str) (d : disk) (st : state)
  : text_response * disk * state :=
  match file with
  | None => (NoAudioFile, d, st)
  | Some f =>
      match filename f with
      | [] => (NoFileSelected, d, st)
      | _ :: _ =>
          match transcribe_saved cc model form_language d st with
          | (inl text, d', st') => (Transcript text None, d', st')
          | (inr e, d', st') => (TranscriptionFailed (GuardRaised e), d', st')
          end
      end
  end.

(** [transcribe_custom], lines 133-160: the file comes in the field
    [audio], its name is not looked at, and the answer repeats the
    language of the form. *)
Definition transcribe_custom (cc : charclass)
    (model : nat -> outcome str) (audio : option upload)
    (form_language : option str) (d : disk) (st : state)
  : text_response * disk * state :=
  match audio with
  | None => (NoAudioFile, d, st)
  | Some _ =>
      match transcribe_saved cc model form_language d st with
      | (inl text, d', st') =>
          (Transcript text
             (Some (match form_language with
                    | Some l => l
                    | None => default_language
                    end)),
           d', st')
      | (inr e, d', st') => (TranscriptionFailed (GuardRaised e), d', st')
      end
  end.

(** A service that has not answered anything yet, and a model that
    fails, to instantiate statements at concrete requests. *)
Definition idle : service := {| temp_files := []; spoken := [] |}.

Definition mute (text : str) : outcome (list Q) := Raises [].

End Endpoint.

(* ================================================================= *)
(** ** Facts about the audio chain *)

(** The decimal literals of the source are the doubles numpy uses. *)
Lemma float_literals :
  map (cst (A := float))
      [6 # 10; 4 # 1; 15 # 100; 95 # 100; 12 # 10; 8 # 10; 9 # 10]%Q
  = [0.6; 4; 0.15; 0.95; 1.2; 0.8; 0.9]%float.
Proof. reflexivity. Qed.

Section SilentSignal.

Lemma compress_zeros (n : nat) :
  compress (repeat 0%float n) = repeat 0%float n.
Proof.
  unfold compress. induction n as [|n IH]; [reflexivity|].
  change (repeat 0%float (S n)) with (0%float :: repeat 0%float n).
  rewrite map_cons, IH. reflexivity.
Qed.

Lemma firstn_repeat {T} (x : T) (k n : nat) :
  firstn k (repeat x n) = repeat x (Nat.min k n).
Proof.
  revert n; induction k as [|k IH]; intros [|n]; simpl; try reflexivity.
  now rewrite IH.
Qed.

Lemma skipn_repeat {T} (x : T) (k n : nat) :
  skipn k (repeat x n) = repeat x (n - k).
Proof.
  revert n; induction k as [|k IH]; intros [|n]; simpl; try reflexivity.
  now rewrite IH.
Qed.

Lemma zip_zeros (a b : nat) :
  zip_with (fun r c => add r (mul c (cst (15 # 100))))
           (repeat 0%float a) (repeat 0%float b)
  = repeat 0%float (Nat.min a b).
Proof.
  revert b; induction a as [|a IH]; intros [|b]; simpl; try reflexivity.
  rewrite IH. reflexivity.
Qed.

Lemma add_reverb_zeros (d n : nat) :
  add_reverb (S d) (repeat 0%float n) = Ok (repeat 0%float n).
Proof.
  unfold add_reverb. rewrite repeat_length.
  destruct (Nat.ltb_spec (S d) n) as [Hlt|Hge]; [|reflexivity].
  rewrite firstn_repeat, skipn_repeat, firstn_repeat, zip_zeros.
  rewrite <- repeat_app. f_equal. f_equal. lia.
Qed.

Lemma amax_zeros (n : nat) :
  amax (map absv (repeat 0%float (S n))) = Ok 0%float.
Proof.
  simpl. f_equal.
  induction n as [|n IH]; simpl; [reflexivity|exact IH].
Qed.

Lemma normalize_peak_zeros (n : nat) :
  normalize_peak (cst (95 # 100)) (repeat 0%float (S n))
  = Ok (repeat nan (S n)).
Proof.
  unfold normalize_peak. rewrite amax_zeros. f_equal.
  induction n as [|n IH]; [reflexivity|].
  change (repeat 0%float (S (S n))) with (0%float :: repeat 0%float (S n)).
  rewrite map_cons, IH. reflexivity.
Qed.

End SilentSignal.

Lemma saturate_nans (tanh : float -> float) (n : nat) :
  tanh nan = nan ->
  saturate tanh (repeat nan n) = repeat nan n.
Proof.
  intros Hnan. unfold saturate.
  induction n as [|n IH]; [reflexivity|].
  change (repeat nan (S n)) with (nan :: repeat nan n).
  rewrite map_cons, IH. f_equal.
  change (mul nan (cst (12 # 10)%Q)) with nan.
  rewrite Hnan. reflexivity.
Qed.

Lemma delay_samples_22050 : delay_samples 22050 = 441.
Proof. vm_compute. reflexivity. Qed.

(** Silence in, NaN out: what the chain computes when the collaborators
    hand on silence. *)
Lemma enhance_silent
    (resample : list float -> nat -> list float)
    (sosfilt : Z -> list float -> list float)
    (tanh : float -> float) (n m : nat) :
  new_length n = S m ->
  resample (repeat 0%float n) (S m) = repeat 0%float (S m) ->
  sosfilt 22050%Z (repeat 0%float (S m)) = repeat 0%float (S m) ->
  tanh nan = nan ->
  enhance_voice_quality resample sosfilt tanh (repeat 0%float n) 22050
  = Ok (repeat nan (S m)).
Proof.
  intros Hlen Hres Hfilt Hnan.
  unfold enhance_voice_quality, after_filter.
  rewrite repeat_length, Hlen, Hres, Hfilt, compress_zeros.
  rewrite delay_samples_22050, add_reverb_zeros, normalize_peak_zeros.
  now rewrite saturate_nans.
Qed.

Lemma within_nans (n : nat) : within 0.8 (repeat nan (S n)) = false.
Proof. reflexivity. Qed.

(** C1 (code as written).  On an all-silent input the chain raises no
    error, but peak normalisation has no test for a zero maximum: it
    divides zero by zero, so the stage does not return the signal
    unchanged and every sample that [enhance_voice_quality] returns is
    NaN. *)
Theorem enhance_silent_input_yields_nan
    (resample : list float -> nat -> list float)
    (sosfilt : Z -> list float -> list float)
    (tanh : float -> float) (n m : nat) :
  new_length n = S m ->
  resample (repeat 0%float n) (S m) = repeat 0%float (S m) ->
  sosfilt 22050%Z (repeat 0%float (S m)) = repeat 0%float (S m) ->
  tanh nan = nan ->
  normalize_peak (cst (95 # 100)%Q) (repeat 0%float (S m))
    <> Ok (repeat 0%float (S m))
  /\ enhance_voice_quality resample sosfilt tanh (repeat 0%float n) 22050
     = Ok (repeat nan (S m)).
Proof.
  intros Hlen Hres Hfilt Hnan. split.
  - rewrite normalize_peak_zeros. discriminate.
  - now apply enhance_silent.
Qed.

Lemma enhance_silent_input_yields_nan_witness :
  normalize_peak (cst (95 # 100)%Q) (repeat 0%float 3)
    <> Ok (repeat 0%float 3)
  /\ enhance_voice_quality decimate pass_through softsign_float
       (repeat 0%float 4) 22050
     = Ok (repeat nan 3).
Proof.
  apply (enhance_silent_input_yields_nan decimate pass_through
           softsign_float 4 2); reflexivity.
Defined.

(** C7 (code as written).  The same silent input leaves the ceiling: the
    returned samples are NaN, and no NaN compares as at most 0.8. *)
Theorem enhance_silent_input_outside_ceiling
    (resample : list float -> nat -> list float)
    (sosfilt : Z -> list float -> list float)
    (tanh : float -> float) (n m : nat) :
  new_length n = S m ->
  resample (repeat 0%float n) (S m) = repeat 0%float (S m) ->
  sosfilt 22050%Z (repeat 0%float (S m)) = repeat 0%float (S m) ->
  tanh nan = nan ->
  exists out,
    enhance_voice_quality resample sosfilt tanh (repeat 0%float n) 22050
    = Ok out /\ within 0.8 out = false.
Proof.
  intros Hlen Hres Hfilt Hnan. exists (repeat nan (S m)). split.
  - now apply enhance_silent.
  - apply within_nans.
Qed.

Lemma enhance_silent_input_outside_ceiling_witness :
  exists out,
    enhance_voice_quality decimate pass_through softsign_float
      (repeat 0%float 4) 22050 = Ok out
    /\ within 0.8 out = false.
Proof.
  apply (enhance_silent_input_outside_ceiling decimate pass_through
           softsign_float 4 2); reflexivity.
Defined.

(* ----------------------------------------------------------------- *)
(** *** The final normalisation, read over exact rationals *)

Section ExactPeak.
Local Open Scope Q_scope.









Lemma exact_saturate_within_ceiling (tanh : Q -> Q) (xs : list Q) :
  (forall x, Qabs (tanh x) <= 1) ->
  Forall (fun y => Qabs y <= 8 # 10) (saturate tanh xs).
Proof.
  intros Hb. unfold saturate. apply Forall_forall. intros y Hy.
  apply in_map_iff in Hy as (x & <- & _).
  cbn [mul cst exact_arith]. rewrite Qabs_Qmult.
  change (Qabs (8 # 10)) with (8 # 10).
  apply Qle_trans with (1 * (8 # 10)).
  - apply Qmult_le_compat_r; [apply Hb|discriminate].
  - rewrite Qmult_1_l. apply Qle_refl.
Qed.

(** Read over exact rationals, whatever [enhance_voice_quality] returns
    lies within the ceiling. *)
Lemma exact_enhance_within_ceiling
    (resample : list Q -> nat -> list Q) (sosfilt : Z -> list Q -> list Q)
    (tanh : Q -> Q) (audio out : list Q) (sample_rate : Z) :
  (forall x, Qabs (tanh x) <= 1) ->
  enhance_voice_quality resample sosfilt tanh audio sample_rate = Ok out ->
  Forall (fun y => Qabs y <= 8 # 10) out.
Proof.
  intros Hb. unfold enhance_voice_quality, after_filter.
  destruct (add_reverb _ _) as [reverb|]; [|discriminate].
  destruct (normalize_peak _ _) as [scaled|]; [|discriminate].
  intros [= <-]. now apply exact_saturate_within_ceiling.
Qed.

End ExactPeak.



(** On IEEE doubles, at one input that is not silent: the enhanced
    samples lie within the ceiling and the encoded peak is 0.9. *)
Example enhance_float_within_ceiling :
  match enhance_voice_quality decimate pass_through softsign_float
          [0.5; -0.25; 0.125; 0.0625]%float 22050 with
  | Ok out => within 0.8 out = true
  | ValueError => False
  end.
Proof. vm_compute. reflexivity. Qed.

Example second_normalization_float :
  match synthesize_postprocess decimate pass_through softsign_float
          [0.5; -0.25; 0.125; 0.0625]%float with
  | Ok out => amax (map PrimFloat.abs out) = Ok 0.9%float
  | ValueError => False
  end.
Proof. vm_compute. reflexivity. Qed.

(* ================================================================= *)
(** ** Facts about guarded inference *)


Lemma gpu_memory_manager_spec {T} (body : state -> (T + raised) * state)
    (st : state) :
  fst (gpu_memory_manager body st) = fst (body st)
  /\ trace (snd (gpu_memory_manager body st))
     = trace (snd (body st)) ++ sweep_events (cuda_available (snd (body st))).
Proof.
  unfold gpu_memory_manager, sweep, sweep_events.
  destruct (body st) as [r st']. cbn [fst snd].
  split; [reflexivity|].
  destruct (cuda_available st'); cbn; [|reflexivity].
  now rewrite <- app_assoc.
Qed.

Lemma guarded_call_trace {T U} (model : nat -> outcome T) (post : T -> U)
    (language : option str) (st : state) :
  exists handler,
    trace (snd (guarded_call model post language st))
    = trace st ++ ModelCall (model_name st) language :: handler
    /\ cuda_available (snd (guarded_call model post language st))
       = cuda_available st.
Proof.
  unfold guarded_call.
  destruct (model (calls st)); cbn.
  - exists []. now split.
  - exists [EmptyCache; GcCollect]. split; [|reflexivity].
    now rewrite <- !app_assoc.
  - exists []. now split.
Qed.

Lemma guarded_trace {T U} (model : nat -> outcome T) (post : T -> U)
    (language : option str) (st : state) :
  exists handler,
    trace (snd (gpu_memory_manager (guarded_call model post language) st))
    = trace st ++ ModelCall (model_name st) language :: handler
      ++ sweep_events (cuda_available st).
Proof.
  destruct (guarded_call_trace model post language st) as (h & Ht & Hc).
  destruct (gpu_memory_manager_spec (guarded_call model post language) st)
    as [_ Hs].
  exists h. rewrite Hs, Ht, Hc, <- app_assoc. reflexivity.
Qed.

(** C9.  The [finally] block of [gpu_memory_manager] runs after every
    body, returned or raised, and leaves its result untouched; so the
    trace of [transcribe_audio] and of [generate_speech] ends with the
    sweep ([empty_cache] when CUDA is available, then [gc.collect]) after
    the model call, whatever the model did. *)
Theorem sweep_runs_on_every_path :
  (forall T (body : state -> (T + raised) * state) st,
      fst (gpu_memory_manager body st) = fst (body st)
      /\ trace (snd (gpu_memory_manager body st))
         = trace (snd (body st))
           ++ sweep_events (cuda_available (snd (body st))))
  /\ (forall cc model language st,
        exists handler,
          trace (snd (transcribe_audio cc model language st))
          = trace st ++ ModelCall (model_name st) (Some language)
              :: handler ++ sweep_events (cuda_available st))
  /\ (forall W cc (model : str -> nat -> outcome W) text st,
        exists handler,
          trace (snd (generate_speech cc model text st))
          = trace st ++ ModelCall (model_name st) None
              :: handler ++ sweep_events (cuda_available st)).
Proof.
  split; [|split].
  - intros. apply gpu_memory_manager_spec.
  - intros. apply guarded_trace.
  - intros. apply guarded_trace.
Qed.

Lemma guarded_exhaustion {T U} (model : nat -> outcome T) (post : T -> U)
    (language : option str) (st : state) :
  model (calls st) = OutOfMemoryError ->
  gpu_memory_manager (guarded_call model post language) st
  = (inr GpuMemoryExhausted,
     {| cuda_available := cuda_available st;
        model_name := model_name st;
        calls := S (calls st);
        trace := trace st
                 ++ [ModelCall (model_name st) language; EmptyCache; GcCollect]
                 ++ sweep_events (cuda_available st) |}).
Proof.
  intros Hoom. unfold gpu_memory_manager, guarded_call. rewrite Hoom.
  unfold sweep, sweep_events, emergency_cleanup, log, count_call.
  cbn. destruct (cuda_available st); cbn; rewrite <- !app_assoc; reflexivity.
Qed.

(** C2, as the code has it.  When the model reports resource exhaustion,
    [transcribe_audio] and [generate_speech] clean up, run the sweep and
    raise the GPU-memory-exhausted exception after exactly one call of the
    model, with the active model unchanged: no downgrade, no retry.  The
    only fallback is at load time, where an exhausted load of the base
    model is followed by one load of the tiny model. *)
Theorem exhaustion_raises_after_one_attempt
    (cc : charclass) (model : nat -> outcome str) (language : str)
    (st : state) :
  model (calls st) = OutOfMemoryError ->
  (exists st',
      transcribe_audio cc model language st = (inr GpuMemoryExhausted, st')
      /\ calls st' = S (calls st)
      /\ model_name st' = model_name st
      /\ trace st' = trace st
           ++ [ModelCall (model_name st) (Some language);
               EmptyCache; GcCollect]
           ++ sweep_events (cuda_available st))
  /\ (forall text,
        exists st',
          generate_speech cc (fun _ => model) text st
          = (inr GpuMemoryExhausted, st')
          /\ calls st' = S (calls st)
          /\ model_name st' = model_name st)
  /\ (forall load,
        load Base = OutOfMemoryError -> load Tiny = Returns tt ->
        exists st',
          load_whisper load st = (inl tt, st')
          /\ model_name st' = Tiny
          /\ exists before after,
               trace st' = trace st ++ before
                 ++ [LoadModel Base; EmptyCache; LoadModel Tiny] ++ after).
Proof.
  intros Hoom. split; [|split].
  - eexists. split; [apply guarded_exhaustion, Hoom|]. now cbn.
  - intros text. eexists.
    split; [unfold generate_speech; apply guarded_exhaustion, Hoom|].
    now cbn.
  - intros load Hb Ht. unfold load_whisper. rewrite Hb, Ht.
    eexists. split; [reflexivity|].
    destruct (cuda_available st) eqn:Ecuda; cbn; rewrite ?Ecuda; cbn;
      (split; [reflexivity|]).
    + exists [SetMemoryFraction (4 # 10); EmptyCache], [EmptyCache].
      now rewrite <- !app_assoc.
    + exists [], []. now rewrite <- !app_assoc.
Qed.

(** C2 as stated fails: the first call runs out of memory, a second call
    would succeed, the base model is active - and no second call is
    made. *)
Lemma no_retry_on_fallback :
  ~ retried_on_fallback fresh (snd (transcribe_audio basic oom_once ru fresh)).
Proof. intros [Hcalls _]. vm_compute in Hcalls. discriminate. Qed.

Lemma exhaustion_raises_after_one_attempt_witness :
  (exists st',
      transcribe_audio basic oom_once ru fresh = (inr GpuMemoryExhausted, st')
      /\ calls st' = 1
      /\ model_name st' = Base
      /\ trace st' = [ModelCall Base (Some ru); EmptyCache; GcCollect;
                      EmptyCache; GcCollect])
  /\ (forall text,
        exists st',
          generate_speech basic (fun _ => oom_once) text fresh
          = (inr GpuMemoryExhausted, st')
          /\ calls st' = 1
          /\ model_name st' = Base)
  /\ (forall load,
        load Base = OutOfMemoryError -> load Tiny = Returns tt ->
        exists st',
          load_whisper load fresh = (inl tt, st')
          /\ model_name st' = Tiny
          /\ exists before after,
               trace st' = [] ++ before
                 ++ [LoadModel Base; EmptyCache; LoadModel Tiny] ++ after).
Proof.
  apply (exhaustion_raises_after_one_attempt basic oom_once ru fresh).
  reflexivity.
Defined.

(* ================================================================= *)
(** ** Facts about the transcription endpoint *)

(** C4 (code as written).  The hint is mapped - "auto" to [None], the
    known codes to Whisper's names, anything else to itself - but the
    mapped value is not what the model receives: [model.transcribe] is
    called with [language="russian"] for every hint, "auto" included. *)
Theorem auto_hint_reaches_model_as_russian :
  Stt.mapped_language (Some auto) = None
  /\ Stt.call_language (Stt.transcribe (Some auto)) = Some Stt.russian
  /\ forall hint, Stt.call_language (Stt.transcribe hint) = Some Stt.russian.
Proof. repeat split. Qed.

(** The optimised server has no mapping: its endpoint hands the hint to
    the model as it came, "auto" included. *)
Lemma optimized_endpoint_passes_hint (cc : charclass)
    (model : nat -> outcome str) (hint : str) (st : state) :
  exists rest,
    trace (snd (transcribe_endpoint cc model (Some hint) st))
    = trace st ++ ModelCall (model_name st) (Some hint) :: rest.
Proof.
  unfold transcribe_endpoint, transcribe_audio.
  destruct (guarded_trace model (strip cc) (Some hint) st) as (h & Hh).
  eexists. exact Hh.
Qed.

Lemma mapped_language_unrecognised (code : str) :
  Stt.lookup code Stt.language_map = None ->
  Stt.mapped_language (Some code) = Some code.
Proof. intros H. unfold Stt.mapped_language. now rewrite H. Qed.

(* ================================================================= *)
(** ** Facts about the length budget ([local_tts_server_optimized.py]) *)

Lemma drop_until_space_spec (r : str) :
  match drop_until_space r with
  | None => no_space r
  | Some rest => exists pre, r = pre ++ SPACE :: rest /\ no_space pre
  end.
Proof.
  induction r as [|c r IH]; cbn [drop_until_space]; [constructor|].
  destruct (N.eqb_spec c SPACE) as [->|Hne].
  - exists []. split; [reflexivity|constructor].
  - destruct (drop_until_space r) as [rest|].
    + destruct IH as (pre & -> & Hpre). exists (c :: pre).
      split; [reflexivity|]. constructor; [|exact Hpre].
      now apply N.eqb_neq.
    + constructor; [|exact IH]. now apply N.eqb_neq.
Qed.

Lemma no_space_rev (s : str) : no_space (rev s) -> no_space s.
Proof.
  unfold no_space. rewrite !Forall_forall. intros H c Hc.
  apply H. now apply in_rev in Hc.
Qed.

(** [s.rsplit(' ', 1)[0]] is all of [s] when [s] has no space, and
    otherwise what precedes its last space. *)
Lemma rsplit_space_head_spec (s : str) :
  (no_space s /\ rsplit_space_head s = s)
  \/ exists tail, s = rsplit_space_head s ++ SPACE :: tail /\ no_space tail.
Proof.
  unfold rsplit_space_head.
  pose proof (drop_until_space_spec (rev s)) as H.
  destruct (drop_until_space (rev s)) as [rest|].
  - right. destruct H as (pre & Hr & Hpre). exists (rev pre). split.
    + rewrite <- (rev_involutive s), Hr, rev_app_distr. cbn [rev].
      now rewrite <- app_assoc.
    + apply no_space_rev. now rewrite rev_involutive.
  - left. split; [now apply no_space_rev|reflexivity].
Qed.

Lemma rsplit_space_head_length (s : str) :
  length (rsplit_space_head s) <= length s.
Proof.
  destruct (rsplit_space_head_spec s) as [[_ ->]|(tail & Hs & _)]; [lia|].
  rewrite Hs at 2. rewrite length_app. lia.
Qed.

(** C6, as the code has it.  [preprocess_russian_text] of the optimised
    server never returns more than 500 characters.  A text over budget is
    replaced by its first three sentence pieces joined with ". "; if that
    is still over budget, its first 500 characters are kept up to their
    last space, when they hold one. *)
Theorem preprocess_within_budget (cc : charclass) (text : str) :
  let cleaned :=
    pause_after cc is_clause_mark
      (pause_after cc is_sentence_end (remove_other_punctuation cc text)) in
  let joined :=
    join [DOT; SPACE] (firstn 3 (split_runs is_sentence_end cleaned)) in
  let head := firstn Optimized.max_length joined in
  let result := Optimized.preprocess_russian_text cc text in
  length result <= Optimized.max_length
  /\ (length cleaned <= Optimized.max_length -> result = cleaned)
  /\ (Optimized.max_length < length cleaned ->
      length joined <= Optimized.max_length -> result = joined)
  /\ (Optimized.max_length < length cleaned ->
      Optimized.max_length < length joined ->
      ~ no_space head ->
      exists tail, head = result ++ SPACE :: tail /\ no_space tail).
Proof.
  cbv zeta. unfold Optimized.preprocess_russian_text.
  set (cleaned := pause_after cc is_clause_mark _).
  set (joined := join _ _).
  destruct (Nat.ltb_spec Optimized.max_length (length cleaned)) as [Hc|Hc].
  - destruct (Nat.ltb_spec Optimized.max_length (length joined)) as [Hj|Hj].
    + split; [|split; [|split]]; try lia.
      * etransitivity; [apply rsplit_space_head_length|].
        apply firstn_le_length.
      * intros _ _ Hspace.
        destruct (rsplit_space_head_spec
                    (firstn Optimized.max_length joined))
          as [[Hnone _]|Hsome]; [contradiction|exact Hsome].
    + split; [|split; [|split]]; try lia. reflexivity.
  - split; [|split; [|split]]; try lia. reflexivity.
Qed.

(** C6 as stated fails twice over: the soft-voice preprocessor has no
    budget and returns all of 501 letters; and the optimised one cuts
    501 letters without a space after the 500th, inside the word. *)
Lemma truncation_cuts_mid_word :
  Optimized.cut_mid_word basic (repeat 97%N 501)
    (Optimized.preprocess_russian_text basic (repeat 97%N 501))
  /\ Optimized.max_length
     < length (SoftFemale.preprocess_russian_text basic (repeat 97%N 501)).
Proof.
  split.
  - exists (repeat 97%N 499), 97%N, 97%N, []. vm_compute. repeat split.
  - vm_compute. lia.
Qed.

(* ================================================================= *)
(** ** Facts about number conversion *)

Section Numbers.
Variable cc : charclass.
Variable convert : N -> str.








End Numbers.









(* ================================================================= *)
(** ** Facts about [str.replace] *)

Section Replace.
Variables old new : str.

Lemma replace_from_skipn (s : str) (k : nat) :
  replace_from old new k s = replace old new (skipn k s).
Proof.
  revert k. induction s as [|c s IH]; intros [|k]; try reflexivity.
  cbn [replace_from skipn]. apply IH.
Qed.

Lemma replace_miss (c : char) (s : str) :
  starts_with old (c :: s) = false ->
  replace old new (c :: s) = c :: replace old new s.
Proof. intros H. unfold replace. cbn [replace_from]. now rewrite H. Qed.

Lemma replace_hit (c : char) (s : str) :
  starts_with old (c :: s) = true ->
  replace old new (c :: s)
  = new ++ replace old new (skipn (length old - 1) s).
Proof.
  intros H. unfold replace at 1. cbn [replace_from]. rewrite H.
  now rewrite replace_from_skipn.
Qed.

Lemma replace_absent (s : str) :
  occurs old s = false -> replace old new s = s.
Proof.
  induction s as [|c s IH]; [reflexivity|].
  cbn [occurs]. intros H. apply orb_false_iff in H as [Hhead Htail].
  rewrite replace_miss by assumption. now rewrite IH.
Qed.

Lemma clash_starts_with (k u rest : str) :
  clash k u = true -> starts_with k (u ++ rest) = false.
Proof.
  revert u. induction k as [|x k IH]; intros [|y u]; cbn; try discriminate.
  destruct (N.eqb_spec x y); cbn; [apply IH|reflexivity].
Qed.

(** A stretch [u] in which [old] cannot begin is copied. *)
Lemma replace_through (u rest : str) :
  clash_suffixes old u = true ->
  replace old new (u ++ rest) = u ++ replace old new rest.
Proof.
  induction u as [|y u IH]; [reflexivity|].
  cbn [clash_suffixes]. intros H. apply andb_true_iff in H as [Hc Hs].
  cbn [app]. rewrite replace_miss.
  - now rewrite IH.
  - now apply (clash_starts_with old (y :: u)).
Qed.

Lemma starts_with_split (k s : str) :
  starts_with k s = true -> s = k ++ skipn (length k) s.
Proof.
  revert s. induction k as [|x k IH]; intros s; [reflexivity|].
  destruct s as [|y s]; cbn; [discriminate|].
  intros H. apply andb_true_iff in H as [Hxy Hk].
  apply N.eqb_eq in Hxy as ->. f_equal. now apply IH.
Qed.

Lemma starts_with_app (k rest : str) : starts_with k (k ++ rest) = true.
Proof.
  induction k as [|x k IH]; [reflexivity|].
  cbn. now rewrite N.eqb_refl.
Qed.

(** What begins the replaced text began the text, for a key that clashes
    with the replacement wherever the two could meet. *)
Lemma starts_with_replace (k s : str) :
  clash_all k new = true ->
  starts_with k (replace old new s) = true -> starts_with k s = true.
Proof.
  revert s. induction k as [|x k IH]; intros s Hc; [reflexivity|].
  cbn [clash_all] in Hc. apply andb_true_iff in Hc as [Hc Hrest].
  destruct s as [|c s]; [discriminate|].
  destruct (starts_with old (c :: s)) eqn:Ehit.
  - rewrite replace_hit by assumption.
    now rewrite (clash_starts_with (x :: k) new).
  - rewrite replace_miss by assumption. cbn [starts_with].
    intros H. apply andb_true_iff in H as [-> H]. now apply IH.
Qed.

Lemma occurs_skipn (k s : str) (n : nat) :
  occurs k s = false -> occurs k (skipn n s) = false.
Proof.
  revert s. induction n as [|n IH]; intros s; [trivial|].
  destruct s as [|c s]; [trivial|].
  cbn [occurs skipn]. intros H. apply orb_false_iff in H as [_ H].
  now apply IH.
Qed.

Lemma occurs_through (k u rest : str) :
  clash_suffixes k u = true ->
  occurs k rest = false -> occurs k (u ++ rest) = false.
Proof.
  intros Hc Hrest. induction u as [|y u IH]; [exact Hrest|].
  cbn [clash_suffixes] in Hc. apply andb_true_iff in Hc as [Hc Hs].
  pose proof (clash_starts_with k (y :: u) rest Hc) as E.
  cbn [app occurs] in *. rewrite E. now apply IH.
Qed.

(** Replacing creates no occurrence of a key [k] that clashes with the
    replacement all round, when every occurrence of [k] in the text is
    one of [old] as well. *)
Lemma occurs_replace (k : str) :
  k <> [] -> clash_all k new = true -> clash_suffixes k new = true ->
  forall n s,
    length s <= n ->
    (forall j, starts_with k (skipn j s) = true ->
               starts_with old (skipn j s) = true) ->
    occurs k (replace old new s) = false.
Proof.
  intros Hk Hall Hsuf. induction n as [|n IH]; intros s Hlen Hocc.
  - destruct s; [|cbn in Hlen; lia].
    cbn. destruct k; [congruence|reflexivity].
  - destruct s as [|c s].
    + cbn. destruct k; [congruence|reflexivity].
    + cbn [length] in Hlen.
      destruct (starts_with old (c :: s)) eqn:Ehit.
      * rewrite replace_hit by assumption.
        apply occurs_through; [assumption|]. apply IH.
        -- rewrite length_skipn. lia.
        -- intros j. rewrite skipn_skipn.
           apply (Hocc (S (j + (length old - 1)))).
      * rewrite replace_miss by assumption. cbn [occurs].
        apply orb_false_iff. split.
        -- destruct (starts_with k (c :: replace old new s)) eqn:E;
             [|reflexivity].
           rewrite <- (replace_miss c s Ehit) in E.
           apply starts_with_replace in E; [|assumption].
           apply (Hocc 0) in E. cbn [skipn] in E. congruence.
        -- apply IH; [lia|]. intros j. apply (Hocc (S j)).
Qed.

End Replace.

Lemma replace_at (old new rest : str) :
  old <> [] -> replace old new (old ++ rest) = new ++ replace old new rest.
Proof.
  destruct old as [|x k]; [congruence|]. intros _.
  cbn [app]. rewrite replace_hit.
  - cbn [length].
    replace (S (length k) - 1) with (length k) by lia.
    now rewrite skipn_app, skipn_all, Nat.sub_diag.
  - apply (starts_with_app (x :: k)).
Qed.

(* ================================================================= *)
(** ** Facts about abbreviation expansion *)

Lemma occurs_false_everywhere (k s : str) (j : nat) :
  occurs k s = false -> starts_with k (skipn j s) = false.
Proof.
  intros H. apply (occurs_skipn k s j) in H.
  destruct (skipn j s); cbn [occurs] in H;
    now apply orb_false_iff in H as [H _].
Qed.

Lemma occurs_app_r (k a b : str) :
  occurs k b = true -> occurs k (a ++ b) = true.
Proof.
  intros H. induction a as [|x a IH]; [exact H|].
  cbn [app occurs]. rewrite IH. apply orb_true_r.
Qed.

Lemma occurs_at (k rest : str) : occurs k (k ++ rest) = true.
Proof.
  destruct (k ++ rest) eqn:E; cbn [occurs]; rewrite <- E;
    now rewrite starts_with_app.
Qed.

(** Where a longer key occurs, so does the key it ends with. *)
Lemma occurs_longer (pre k s : str) :
  occurs (pre ++ k) s = true -> occurs k s = true.
Proof.
  induction s as [|c s IH]; cbn [occurs].
  - rewrite orb_false_r. intros H. apply starts_with_split in H.
    destruct pre, k; cbn in H; try discriminate. reflexivity.
  - intros H. apply orb_true_iff in H as [H|H].
    + apply starts_with_split in H. rewrite <- app_assoc in H.
      change (starts_with k (c :: s) || occurs k s = true)
        with (occurs k (c :: s) = true).
      rewrite H. apply occurs_app_r, occurs_at.
    + rewrite (IH H). apply orb_true_r.
Qed.

(** After its own pass "т.д." occurs nowhere. *)
Lemma no_T_D_after_own_pass (s : str) :
  occurs T_D (replace T_D TAK_DALEE s) = false.
Proof.
  apply (occurs_replace T_D TAK_DALEE T_D) with (n := length s).
  - discriminate.
  - reflexivity.
  - reflexivity.
  - apply le_n.
  - trivial.
Qed.

(** The pass for "т.п." does not bring it back. *)
Lemma no_T_D_after_T_P (s : str) :
  occurs T_D s = false ->
  occurs T_D (replace T_P TOMU_PODOBNOE s) = false.
Proof.
  intros H.
  apply (occurs_replace T_P TOMU_PODOBNOE T_D) with (n := length s).
  - discriminate.
  - reflexivity.
  - reflexivity.
  - apply le_n.
  - intros j Hj. now rewrite occurs_false_everywhere in Hj.
Qed.

(** So the pass for "и т.д.", third in both tables, finds nothing. *)
Lemma third_pass_idle (s : str) :
  let t := replace T_P TOMU_PODOBNOE (replace T_D TAK_DALEE s) in
  replace I_T_D I_TAK_DALEE t = t.
Proof.
  cbv zeta. apply replace_absent.
  destruct (occurs I_T_D _) eqn:E; [|reflexivity].
  apply (occurs_longer [1080; 32]%N T_D) in E.
  now rewrite no_T_D_after_T_P in E by apply no_T_D_after_own_pass.
Qed.

(** Expanding "и т.д." first changes nothing for the pass of "т.д.":
    the longer key expands to its first two characters followed by the
    expansion of the shorter one. *)
Lemma longer_first_same (n : nat) (s : str) :
  length s <= n ->
  replace T_D TAK_DALEE (replace I_T_D I_TAK_DALEE s)
  = replace T_D TAK_DALEE s.
Proof.
  revert s. induction n as [|n IH]; intros s Hlen.
  - destruct s; [reflexivity|cbn in Hlen; lia].
  - destruct s as [|c s]; [reflexivity|]. cbn [length] in Hlen.
    destruct (starts_with I_T_D (c :: s)) eqn:Elong.
    + apply starts_with_split in Elong. rewrite Elong.
      set (rest := skipn (length I_T_D) (c :: s)).
      assert (Hrest : length rest <= n).
      { subst rest. rewrite length_skipn. cbn [length]. cbn. lia. }
      rewrite replace_at by discriminate.
      rewrite (replace_through T_D TAK_DALEE I_TAK_DALEE) by reflexivity.
      rewrite IH by assumption.
      change (I_T_D ++ rest) with ([1080; 32]%N ++ T_D ++ rest).
      rewrite (replace_through T_D TAK_DALEE [1080; 32]%N) by reflexivity.
      rewrite replace_at by discriminate. reflexivity.
    + rewrite (replace_miss I_T_D I_TAK_DALEE c s Elong).
      destruct (starts_with T_D (c :: s)) eqn:Eshort.
      * apply starts_with_split in Eshort.
        set (rest := skipn (length T_D) (c :: s)) in *.
        assert (Hrest : length rest <= n).
        { subst rest. rewrite length_skipn. cbn [length]. cbn. lia. }
        rewrite <- (replace_miss I_T_D I_TAK_DALEE c s Elong).
        rewrite Eshort.
        rewrite (replace_through I_T_D I_TAK_DALEE T_D) by reflexivity.
        rewrite !replace_at by discriminate.
        now rewrite IH.
      * rewrite (replace_miss T_D TAK_DALEE c s Eshort).
        rewrite replace_miss.
        -- now rewrite IH by lia.
        -- destruct (starts_with T_D (c :: replace I_T_D I_TAK_DALEE s))
             eqn:E; [|reflexivity].
           rewrite <- (replace_miss I_T_D I_TAK_DALEE c s Elong) in E.
           apply starts_with_replace in E; [congruence|reflexivity].
Qed.

(** C5, as the code has it.  The table is applied as successive
    whole-text replacements in its source order, which is not by
    decreasing length: "т.д." is replaced before the longer "и т.д.",
    whose own pass then never changes the text.  The expansion returned
    is nevertheless the one that longest-first application of the same
    table returns, in both servers. *)
Theorem abbreviations_in_source_order (text : str) :
  map fst (firstn 3 Upgraded.abbreviations) = [T_D; T_P; I_T_D]
  /\ map fst (firstn 3 SoftFemale.abbreviations) = [T_D; T_P; I_T_D]
  /\ replace_all (firstn 3 Upgraded.abbreviations) text
     = replace_all (firstn 2 Upgraded.abbreviations) text
  /\ replace_all (firstn 3 SoftFemale.abbreviations) text
     = replace_all (firstn 2 SoftFemale.abbreviations) text
  /\ Upgraded.expand_abbreviations text
     = expand_longest_first Upgraded.abbreviations text
  /\ SoftFemale.expand_abbreviations text
     = expand_longest_first SoftFemale.abbreviations text.
Proof.
  split; [reflexivity|]. split; [reflexivity|].
  pose proof (third_pass_idle text) as Hidle. cbv zeta in Hidle.
  pose proof (longer_first_same (length text) text (le_n _)) as Hsame.
  split; [exact Hidle|]. split; [exact Hidle|].
  unfold Upgraded.expand_abbreviations, SoftFemale.expand_abbreviations,
    expand_longest_first.
  change (longest_first Upgraded.abbreviations)
    with ((I_T_D, I_TAK_DALEE) :: (T_D, TAK_DALEE) :: (T_P, TOMU_PODOBNOE)
          :: skipn 3 Upgraded.abbreviations).
  change (longest_first SoftFemale.abbreviations)
    with ((I_T_D, I_TAK_DALEE) :: (T_D, TAK_DALEE) :: (T_P, TOMU_PODOBNOE)
          :: skipn 3 SoftFemale.abbreviations).
  change Upgraded.abbreviations
    with ((T_D, TAK_DALEE) :: (T_P, TOMU_PODOBNOE) :: (I_T_D, I_TAK_DALEE)
          :: skipn 3 Upgraded.abbreviations) at 1.
  change SoftFemale.abbreviations
    with ((T_D, TAK_DALEE) :: (T_P, TOMU_PODOBNOE) :: (I_T_D, I_TAK_DALEE)
          :: skipn 3 SoftFemale.abbreviations) at 1.
  unfold replace_all. cbn [fold_left fst snd].
  fold (replace_all (skipn 3 Upgraded.abbreviations)).
  fold (replace_all (skipn 3 SoftFemale.abbreviations)).
  cbn [fold_left firstn replace_all fst snd] in Hidle.
  rewrite Hidle, Hsame. split; reflexivity.
Qed.

(** C5 as stated fails: on "и т.д." the pass of the shorter "т.д." comes
    first and rewrites part of the longer abbreviation, which the pass of
    "и т.д." no longer finds. *)
Lemma shorter_entry_applied_first :
  replace_all (firstn 1 Upgraded.abbreviations) I_T_D
    = I_TAK_DALEE
  /\ occurs I_T_D
       (replace_all (firstn 2 Upgraded.abbreviations) I_T_D)
     = false
  /\ map (fun e => length (fst e)) Upgraded.abbreviations
     <> map (fun e => length (fst e))
          (longest_first Upgraded.abbreviations).
Proof. repeat split; vm_compute; discriminate. Qed.

(* ================================================================= *)
(** ** Facts about whitespace *)

Section Whitespace.
Variable cc : charclass.
Hypothesis Hspace : isspace cc SPACE = true.

Lemma lstrip_snoc (a : str) (c : char) :
  lstrip cc (a ++ [c])
  = match lstrip cc a with
    | [] => if isspace cc c then [] else [c]
    | r => r ++ [c]
    end.
Proof.
  induction a as [|x a IH]; cbn [app lstrip].
  - destruct (isspace cc c); reflexivity.
  - destruct (isspace cc x); [exact IH|reflexivity].
Qed.

Lemma rstrip_cons (c : char) (s : str) :
  rstrip cc (c :: s)
  = match rstrip cc s with
    | [] => if isspace cc c then [] else [c]
    | r => c :: r
    end.
Proof.
  unfold rstrip. cbn [rev]. rewrite lstrip_snoc.
  destruct (lstrip cc (rev s)) as [|x r] eqn:E.
  - cbn [rev]. destruct (isspace cc c); reflexivity.
  - rewrite rev_app_distr. cbn [rev app].
    destruct (rev r ++ [x]) eqn:E'; [|reflexivity].
    now apply app_eq_nil in E' as [_ E'].
Qed.

Lemma lstrip_begins (s : str) : begins_in (isspace cc) (lstrip cc s) = false.
Proof.
  induction s as [|c s IH]; [reflexivity|]. cbn [lstrip].
  destruct (isspace cc c) eqn:E; [exact IH|]. cbn. exact E.
Qed.

Lemma rstrip_begins (s : str) :
  begins_in (isspace cc) s = false ->
  begins_in (isspace cc) (rstrip cc s) = false.
Proof.
  destruct s as [|c s]; [reflexivity|]. cbn [begins_in]. intros Hc.
  rewrite rstrip_cons, Hc. destruct (rstrip cc s); cbn; exact Hc.
Qed.

Lemma rstrip_ends (s : str) : ends_in (isspace cc) (rstrip cc s) = false.
Proof.
  induction s as [|c s IH]; [reflexivity|]. rewrite rstrip_cons.
  destruct (rstrip cc s) as [|x r].
  - destruct (isspace cc c) eqn:E; [reflexivity|]. cbn. exact E.
  - exact IH.
Qed.

Lemma collapse_from_tidy (s : str) (b : bool) :
  ends_in (isspace cc) s = false -> (s = [] -> b = false) ->
  tidy_from cc b (collapse_from cc b s) = true.
Proof.
  revert b. induction s as [|c s IH]; intros b Hend Hb.
  - cbn. now rewrite Hb.
  - assert (Hs : ends_in (isspace cc) s = false).
    { destruct s; [reflexivity|exact Hend]. }
    cbn [collapse_from]. destruct (isspace cc c) eqn:Ec.
    + assert (Hne : s = [] -> true = false).
      { intros ->. cbn in Hend. congruence. }
      destruct b.
      * apply IH; assumption.
      * cbn [tidy_from]. rewrite Hspace, N.eqb_refl. cbn [negb andb].
        apply IH; assumption.
    + cbn [tidy_from]. rewrite Ec. apply IH; [assumption|reflexivity].
Qed.

(** Stripping and collapsing yields whitespace within policy. *)
Lemma collapse_strip_tidy (s : str) :
  tidy cc (collapse_whitespace cc (strip cc s)) = true.
Proof.
  unfold strip, collapse_whitespace.
  pose proof (rstrip_begins _ (lstrip_begins s)) as Hb.
  pose proof (rstrip_ends (lstrip cc s)) as He.
  destruct (rstrip cc (lstrip cc s)) as [|c v]; [reflexivity|].
  cbn [begins_in] in Hb. cbn [collapse_from]. rewrite Hb.
  cbn [tidy tidy_from]. rewrite Hb.
  apply collapse_from_tidy; [|reflexivity].
  destruct v; [reflexivity|exact He].
Qed.

Lemma tidy_from_collapse (s : str) (b : bool) :
  tidy_from cc b s = true -> collapse_from cc b s = s.
Proof.
  revert b. induction s as [|c s IH]; intros b; [reflexivity|].
  cbn [tidy_from collapse_from]. destruct (isspace cc c).
  - intros H. apply andb_true_iff in H as [H Ht].
    apply andb_true_iff in H as [Hb Hc].
    apply negb_true_iff in Hb as ->. apply N.eqb_eq in Hc as ->.
    now rewrite IH.
  - intros H. now rewrite IH.
Qed.

Lemma tidy_from_rstrip (s : str) (b : bool) :
  tidy_from cc b s = true -> rstrip cc s = s.
Proof.
  revert b. induction s as [|c s IH]; intros b; [reflexivity|].
  cbn [tidy_from]. rewrite rstrip_cons. destruct (isspace cc c) eqn:Ec.
  - intros H. apply andb_true_iff in H as [_ Ht].
    rewrite (IH _ Ht). destruct s; [discriminate|reflexivity].
  - intros Ht. rewrite (IH _ Ht). destruct s; reflexivity.
Qed.

(** Text within policy is left alone by stripping and collapsing. *)
Lemma tidy_collapse_strip (s : str) :
  tidy cc s = true -> collapse_whitespace cc (strip cc s) = s.
Proof.
  destruct s as [|c s]; [reflexivity|]. cbn [tidy]. intros Ht.
  unfold strip, collapse_whitespace.
  assert (Hc : isspace cc c = false).
  { cbn [tidy_from] in Ht. destruct (isspace cc c); [discriminate|easy]. }
  cbn [lstrip]. rewrite Hc, (tidy_from_rstrip _ _ Ht).
  cbn [collapse_from]. rewrite Hc. f_equal.
  apply tidy_from_collapse. cbn [tidy_from] in Ht. now rewrite Hc in Ht.
Qed.

End Whitespace.

(* ================================================================= *)
(** ** Texts without pause marks *)

Lemma Forall_lstrip (cc : charclass) (P : char -> Prop) (s : str) :
  Forall P s -> Forall P (lstrip cc s).
Proof.
  induction 1 as [|c s Hc Hs IH]; [constructor|]. cbn [lstrip].
  destruct (isspace cc c); [exact IH|now constructor].
Qed.

Lemma Forall_strip (cc : charclass) (P : char -> Prop) (s : str) :
  Forall P s -> Forall P (strip cc s).
Proof.
  intros H. unfold strip, rstrip.
  apply Forall_rev, Forall_lstrip, Forall_rev, Forall_lstrip, H.
Qed.

Lemma Forall_collapse (cc : charclass) (P : char -> Prop) (s : str) :
  P SPACE -> Forall P s -> forall b, Forall P (collapse_from cc b s).
Proof.
  intros Hsp. induction 1 as [|c s Hc Hs IH]; intros b; [constructor|].
  cbn [collapse_from]. destruct (isspace cc c).
  - destruct b; [apply IH|]. constructor; [exact Hsp|apply IH].
  - constructor; [exact Hc|apply IH].
Qed.






(* ================================================================= *)
(** ** [str] and [int] on numbers *)

Section Decimal.
Variable cc : charclass.
Hypothesis Hok : cc_ok cc.

Lemma uint_chars_ascii (u : Decimal.uint) :
  Forall (fun c => in_range 48 57 c = true) (uint_chars u).
Proof. induction u; cbn [uint_chars]; constructor; (reflexivity || assumption). Qed.

Lemma int_of_uint_acc (u : Decimal.uint) (acc : positive) :
  fold_left (fun a c => (10 * a + digit_value cc c)%N) (uint_chars u) (Npos acc)
  = Npos (Pos.of_uint_acc u acc).
Proof.
  revert acc.
  induction u; intros acc; cbn [uint_chars fold_left Pos.of_uint_acc];
    [reflexivity|..];
    rewrite <- IHu; f_equal;
    match goal with
    | |- context [digit_value cc ?d] =>
        rewrite (proj2 (ok_ascii_digit cc Hok d eq_refl))
    end; lia.
Qed.

Lemma int_of_uint (u : Decimal.uint) :
  fold_left (fun a c => (10 * a + digit_value cc c)%N) (uint_chars u) 0%N
  = Pos.of_uint u.
Proof.
  induction u; cbn [uint_chars fold_left Pos.of_uint];
    [reflexivity|..];
    match goal with
    | |- context [digit_value cc ?d] =>
        rewrite (proj2 (ok_ascii_digit cc Hok d eq_refl))
    end; [exact IHu|..]; apply int_of_uint_acc.
Qed.

Lemma int_of_str (v : N) : int_of_digits cc (str_of_N v) = v.
Proof.
  unfold int_of_digits, str_of_N. rewrite int_of_uint.
  apply (DecimalN.Unsigned.of_to v).
Qed.

Lemma str_of_N_nonempty (v : N) : str_of_N v <> [].
Proof.
  unfold str_of_N. destruct v as [|p]; [discriminate|].
  cbn [N.to_uint]. pose proof (DecimalPos.Unsigned.to_uint_nonnil p) as H.
  destruct (Pos.to_uint p); [congruence|..]; discriminate.
Qed.
End Decimal.

(* ================================================================= *)
(** ** Number conversion a second time *)

Section Idempotence.
Variable cc : charclass.
Variable convert : N -> str.
Hypothesis Hcc : cc_ok cc.
Hypothesis Hconv : conversion_ok cc convert.






(** Characters that are no whitespace do not change the policy. *)
Lemma tidy_from_nonspace (w rest : str) (b : bool) :
  w <> [] -> Forall (fun c => isspace cc c = false) w ->
  tidy_from cc b (w ++ rest) = tidy_from cc false rest.
Proof.
  intros Hne Hw. revert b. induction Hw as [|c w Hc Hw IH]; [congruence|].
  intros b. cbn [app tidy_from]. rewrite Hc.
  destruct w as [|c' w]; [reflexivity|]. apply IH. discriminate.
Qed.

Lemma tidy_from_sub_numbers (s : str) :
  (forall pw b, tidy_from cc b (sub_numbers_from cc convert pw None s) = tidy_from cc b s)
  /\ (forall r b, r <> [] -> Forall (fun c => isdecimal cc c = true) r ->
        tidy_from cc b (sub_numbers_from cc convert true (Some r) s) = tidy_from cc false s).
Proof.
  induction s as [|c s [IHn IHs]]; split.
  - reflexivity.
  - intros r b _ _. cbn [sub_numbers_from].
    destruct (Hconv (int_of_digits cc (rev r))) as (Hne & Hsp & _).
    rewrite <- (app_nil_r (convert _)).
    now rewrite tidy_from_nonspace.
  - intros pw b. cbn [sub_numbers_from].
    destruct (isdecimal cc c && negb pw) eqn:E.
    + apply andb_true_iff in E as [Hd _].
      rewrite IHs by (discriminate || now repeat constructor).
      cbn [tidy_from]. now rewrite (ok_decimal_nonspace cc Hcc c Hd).
    + cbn [tidy_from]. now rewrite !IHn.
  - intros r b Hne Hr. cbn [sub_numbers_from].
    destruct (isdecimal cc c) eqn:Hd.
    + rewrite IHs by (discriminate || now constructor).
      cbn [tidy_from]. now rewrite (ok_decimal_nonspace cc Hcc c Hd).
    + assert (Hrne : rev r <> []).
      { intros E. apply (f_equal (@rev _)) in E.
        rewrite rev_involutive in E. now apply Hne. }
      assert (Hrsp : Forall (fun c => isspace cc c = false) (rev r)).
      { apply Forall_rev. eapply Forall_impl; [|exact Hr].
        apply (ok_decimal_nonspace cc Hcc). }
      destruct (Hconv (int_of_digits cc (rev r))) as (Hcne & Hcsp & _).
      destruct (isword cc c);
        rewrite tidy_from_nonspace by assumption;
        cbn [tidy_from]; now rewrite !IHn.
Qed.

Lemma tidy_sub_numbers (s : str) :
  tidy cc s = true -> tidy cc (sub_numbers cc convert s) = true.
Proof.
  destruct s as [|c s]; [reflexivity|]. cbn [tidy]. intros H.
  destruct (tidy_from_sub_numbers (c :: s)) as [Hn _].
  specialize (Hn false true). rewrite H in Hn.
  unfold sub_numbers. destruct (sub_numbers_from cc convert false None (c :: s)); [reflexivity|].
  exact Hn.
Qed.


End Idempotence.

(* ================================================================= *)
(** ** Idempotence of the soft-voice preprocessor *)

Lemma in_range_out (a b a' b' c : N) :
  in_range a b c = true -> (b' < a \/ b < a')%N -> in_range a' b' c = false.
Proof.
  unfold in_range. intros H Hd. apply andb_true_iff in H as [H1 H2].
  apply N.leb_le in H1, H2. apply andb_false_iff.
  destruct (N.leb_spec a' c); [right|now left].
  apply N.leb_gt. lia.
Qed.

Lemma in_range_neq (a b k c : N) :
  in_range a b c = true -> (k < a \/ b < k)%N -> (c =? k)%N = false.
Proof.
  unfold in_range. intros H Hd. apply andb_true_iff in H as [H1 H2].
  apply N.leb_le in H1, H2. apply N.eqb_neq. lia.
Qed.

Lemma in_range_sub (a b a' b' c : N) :
  in_range a b c = true -> (a' <= a /\ b <= b')%N -> in_range a' b' c = true.
Proof.
  unfold in_range. intros H Hd. apply andb_true_iff in H as [H1 H2].
  apply N.leb_le in H1, H2. apply andb_true_iff. split; apply N.leb_le; lia.
Qed.

Lemma basic_ok : cc_ok basic.
Proof.
  split.
  - reflexivity.
  - intros c H. split; [exact H|reflexivity].
  - intros c H. cbn [isdecimal basic] in H. cbn [isspace basic].
    unfold basic_isspace.
    rewrite !(in_range_out _ _ _ _ _ H) by lia.
    now rewrite !(in_range_neq _ _ _ _ H) by lia.
  - intros c H. cbn [isdecimal isalnum isspace basic]. unfold basic_isspace.
    rewrite (in_range_sub _ _ 1024 1153 _ H) by lia.
    rewrite !(in_range_out _ _ _ _ _ H) by lia.
    now rewrite !(in_range_neq _ _ _ _ H) by lia.
Qed.

Section SoftConversion.
Variable cc : charclass.
Hypothesis Hcc : cc_ok cc.

Lemma cyrillic_word (w : str) :
  forallb (in_range 1072 1103) w = true ->
  Forall (fun c => isspace cc c = false) w
  /\ no_pause w
  /\ Forall (fun c => isdecimal cc c = false /\ isword cc c = true) w.
Proof.
  intros H. rewrite forallb_forall in H.
  repeat split; apply Forall_forall; intros c Hc;
    destruct (ok_cyrillic cc Hcc c (H c Hc)) as (Hd & Ha & Hs);
    try assumption.
  - unfold is_pause, COMMA, DOT, BANG, QUESTION.
    now rewrite !(in_range_neq _ _ _ _ (H c Hc)) by lia.
  - unfold isword. now rewrite Ha, orb_true_r.
Qed.

Lemma ascii_digits (w : str) :
  Forall (fun c => in_range 48 57 c = true) w ->
  Forall (fun c => isspace cc c = false) w
  /\ no_pause w
  /\ Forall (fun c => isdecimal cc c = true) w.
Proof.
  intros H. rewrite Forall_forall in H.
  repeat split; apply Forall_forall; intros c Hc;
    destruct (ok_ascii_digit cc Hcc c (H c Hc)) as (Hd & _).
  - now apply (ok_decimal_nonspace cc Hcc).
  - unfold is_pause, COMMA, DOT, BANG, QUESTION.
    now rewrite !(in_range_neq _ _ _ _ (H c Hc)) by lia.
  - assumption.
Qed.


End SoftConversion.




(* ================================================================= *)
(** ** Whitespace policy, and texts of whitespace only *)

Lemma tidy_from_ends (cc : charclass) (s : str) (b : bool) :
  tidy_from cc b s = true -> ends_in (isspace cc) s = false.
Proof.
  revert b. induction s as [|c s IH]; intros b; [reflexivity|].
  cbn [tidy_from]. destruct (isspace cc c) eqn:Ec.
  - intros H. apply andb_true_iff in H as [_ Ht].
    destruct s as [|c' s]; [discriminate|]. apply (IH _ Ht).
  - intros Ht. destruct s as [|c' s]; [exact Ec|]. apply (IH _ Ht).
Qed.

Lemma tidy_begins (cc : charclass) (s : str) :
  tidy cc s = true -> begins_in (isspace cc) s = false.
Proof.
  destruct s as [|c s]; [reflexivity|]. cbn [tidy tidy_from begins_in].
  destruct (isspace cc c); [discriminate|reflexivity].
Qed.

(** X1.  [re.sub(r'\s+', ' ', text.strip())], the first statement of
    the soft-voice and of the upgraded preprocessor, returns a text
    within whitespace policy: single spaces only, none at either end;
    and on its own result it changes nothing. *)
Theorem whitespace_policy_established (cc : charclass) (s : str) :
  isspace cc SPACE = true ->
  let w := collapse_whitespace cc (strip cc s) in
  tidy cc w = true
  /\ begins_in (isspace cc) w = false
  /\ ends_in (isspace cc) w = false
  /\ collapse_whitespace cc (strip cc w) = w.
Proof.
  intros Hsp w.
  assert (Ht : tidy cc w = true) by now apply collapse_strip_tidy.
  split; [exact Ht|]. split; [now apply tidy_begins|]. split.
  - destruct w as [|c w']; [reflexivity|]. now apply (tidy_from_ends cc _ true).
  - now apply tidy_collapse_strip.
Qed.

Lemma whitespace_policy_established_witness :
  let w := collapse_whitespace basic (strip basic [32; 97; 9; 10; 98; 32]%N) in
  tidy basic w = true
  /\ begins_in (isspace basic) w = false
  /\ ends_in (isspace basic) w = false
  /\ collapse_whitespace basic (strip basic w) = w.
Proof.
  apply (whitespace_policy_established basic [32; 97; 9; 10; 98; 32]%N).
  reflexivity.
Defined.

Lemma lstrip_nil (cc : charclass) (s : str) :
  lstrip cc s = [] <-> blank cc s.
Proof.
  induction s as [|c s IH]; cbn [lstrip].
  - split; [constructor|reflexivity].
  - destruct (isspace cc c) eqn:Ec.
    + rewrite IH. split; [now constructor|now inversion 1].
    + split; [discriminate|]. inversion 1; congruence.
Qed.

Lemma strip_nil (cc : charclass) (s : str) :
  strip cc s = [] <-> blank cc s.
Proof.
  unfold strip, rstrip. split.
  - intros H. apply (f_equal (@rev _)) in H. rewrite rev_involutive in H.
    cbn in H. apply lstrip_nil in H. apply Forall_rev in H.
    rewrite rev_involutive in H.
    destruct (lstrip cc s) eqn:E; [now apply lstrip_nil|].
    exfalso. inversion H as [|? ? Hc _]; subst.
    pose proof (lstrip_begins cc s) as Hb. rewrite E in Hb. cbn in Hb.
    congruence.
  - intros H. apply lstrip_nil in H. rewrite H. reflexivity.
Qed.

Lemma collapse_nil (cc : charclass) (s : str) :
  collapse_whitespace cc s = [] -> s = [].
Proof.
  destruct s as [|c s]; [reflexivity|]. unfold collapse_whitespace.
  cbn [collapse_from]. destruct (isspace cc c); discriminate.
Qed.

Lemma replace_nil (old new s : str) :
  new <> [] -> replace old new s = [] -> s = [].
Proof.
  intros Hn. destruct s as [|c s]; [reflexivity|].
  destruct (starts_with old (c :: s)) eqn:E.
  - rewrite replace_hit by assumption. intros H.
    apply app_eq_nil in H as [H _]. contradiction.
  - rewrite replace_miss by assumption. discriminate.
Qed.

Lemma replace_all_nil (table : list (str * str)) (s : str) :
  Forall (fun e => snd e <> []) table -> replace_all table s = [] -> s = [].
Proof.
  unfold replace_all. intros H. revert s.
  induction H as [|[k v] table Hv _ IH]; intros s; [trivial|].
  cbn [fold_left fst snd]. intros E. apply IH in E.
  now apply replace_nil in E.
Qed.

Lemma sub_numbers_from_nil (cc : charclass) (convert : N -> str) (s : str) :
  (forall v, convert v <> []) ->
  forall pw run, sub_numbers_from cc convert pw run s = [] ->
                 s = [] /\ run = None.
Proof.
  intros Hc. induction s as [|c s IH]; intros pw run; cbn [sub_numbers_from].
  - destruct run; [intros E; now apply Hc in E|now split].
  - destruct run as [r|].
    + destruct (isdecimal cc c).
      * intros E. apply IH in E as [_ E]. discriminate.
      * destruct (isword cc c); intros E; apply app_eq_nil in E as [_ E];
          discriminate.
    + destruct (isdecimal cc c && negb pw).
      * intros E. apply IH in E as [_ E]. discriminate.
      * discriminate.
Qed.

Lemma dict_get_nonempty (table : list (N * str)) (num : N) (default : str) :
  Forall (fun e => snd e <> []) table -> default <> [] ->
  dict_get table num default <> [].
Proof.
  intros H Hd. induction H as [|[k v] table Hv _ IH]; [exact Hd|].
  cbn [dict_get]. destruct (k =? num)%N; [exact Hv|exact IH].
Qed.

Lemma soft_convert_nonempty (v : N) :
  SoftFemale.convert_number_to_words v <> [].
Proof.
  apply dict_get_nonempty; [|apply str_of_N_nonempty].
  unfold SoftFemale.numbers. repeat constructor; discriminate.
Qed.

Lemma upgraded_convert_nonempty (v : N) :
  Upgraded.convert_number_to_words v <> [].
Proof.
  unfold Upgraded.convert_number_to_words.
  repeat match goal with
         | |- context [(v =? ?k)%N] => destruct (v =? k)%N; [discriminate|]
         end.
  apply str_of_N_nonempty.
Qed.

(** X2.  The soft-voice and the upgraded preprocessor return the empty
    text exactly for the texts made of whitespace only (the empty text
    included): nothing else is ever deleted down to nothing. *)
Theorem preprocess_empty_iff_blank (cc : charclass) (text : str) :
  (SoftFemale.preprocess_russian_text cc text = [] <-> blank cc text)
  /\ (Upgraded.preprocess_russian_text cc text = [] <-> blank cc text).
Proof.
  split; split.
  - unfold SoftFemale.preprocess_russian_text, sub_numbers. intros E.
    apply sub_numbers_from_nil in E as [E _]; [|apply soft_convert_nonempty].
    apply replace_all_nil in E; [|repeat constructor; discriminate].
    apply replace_all_nil in E; [|repeat constructor; discriminate].
    apply collapse_nil in E. now apply strip_nil.
  - intros H. apply strip_nil in H.
    unfold SoftFemale.preprocess_russian_text. now rewrite H.
  - unfold Upgraded.preprocess_russian_text, sub_numbers. intros E.
    apply sub_numbers_from_nil in E as [E _];
      [|apply upgraded_convert_nonempty].
    apply replace_all_nil in E; [|repeat constructor; discriminate].
    apply collapse_nil in E. now apply strip_nil.
  - intros H. apply strip_nil in H.
    unfold Upgraded.preprocess_russian_text. now rewrite H.
Qed.

(* ================================================================= *)
(** ** The upgraded preprocessor a second time *)

Section Rewrites.
Variable chunk : str -> Prop.




End Rewrites.


(** After the whole table no key is left. *)





Lemma replace_all_absent (table : list (str * str)) (s : str) :
  Forall (fun e => occurs (fst e) s = false) table ->
  replace_all table s = s.
Proof.
  unfold replace_all. induction 1 as [|[k v] table Hk _ IH]; [reflexivity|].
  cbn [fold_left fst snd]. cbn [fst] in Hk. now rewrite replace_absent.
Qed.

(** Replacing a key by a text, both within whitespace policy, keeps the
    policy. *)
Section TidyReplace.
Variable cc : charclass.

Lemma tidy_from_either (u : str) (b : bool) :
  tidy_from cc true u = true -> tidy_from cc b u = true.
Proof.
  destruct u as [|c u]; [discriminate|]. cbn [tidy_from].
  destruct (isspace cc c); [discriminate|trivial].
Qed.

Lemma tidy_from_through (u rest : str) (b : bool) :
  tidy_from cc b u = true ->
  tidy_from cc b (u ++ rest) = tidy_from cc false rest.
Proof.
  revert b. induction u as [|c u IH]; intros b.
  - cbn [tidy_from app]. intros H. apply negb_true_iff in H as ->.
    reflexivity.
  - cbn [tidy_from app]. destruct (isspace cc c).
    + intros H. apply andb_true_iff in H as [H Hu]. rewrite H.
      cbn [andb]. now apply IH.
    + apply IH.
Qed.

Lemma tidy_from_replace (old new : str) :
  tidy_from cc true old = true -> tidy_from cc true new = true ->
  forall n s b, length s <= n ->
    tidy_from cc b (replace old new s) = tidy_from cc b s.
Proof.
  intros Ho Hn. induction n as [|n IH]; intros s b Hlen.
  - destruct s; [reflexivity|cbn in Hlen; lia].
  - destruct s as [|c s]; [reflexivity|]. cbn [length] in Hlen.
    destruct (starts_with old (c :: s)) eqn:E.
    + rewrite replace_hit by assumption.
      apply starts_with_split in E. rewrite E.
      rewrite !tidy_from_through by now apply tidy_from_either.
      destruct old as [|x old]; [discriminate|].
      cbn [length skipn].
      replace (S (length old) - 1) with (length old) by lia.
      apply IH. rewrite length_skipn. lia.
    + rewrite replace_miss by assumption. cbn [tidy_from].
      now rewrite !IH by lia.
Qed.

Lemma tidy_replace_all (table : list (str * str)) (s : str) :
  Forall (fun e => tidy_from cc true (fst e) = true
                   /\ tidy_from cc true (snd e) = true) table ->
  tidy cc s = true -> tidy cc (replace_all table s) = true.
Proof.
  unfold replace_all. intros H. revert s.
  induction H as [|[k v] table [Hk Hv] _ IH]; intros s Hs; [exact Hs|].
  cbn [fold_left fst snd]. apply IH. cbn [fst snd] in Hk, Hv.
  destruct s as [|c s]; [reflexivity|].
  pose proof (tidy_from_replace k v Hk Hv (length (c :: s)) (c :: s) true
                (le_n _)) as E.
  cbn [tidy] in Hs. rewrite Hs in E. unfold tidy.
  destruct (replace k v (c :: s)); [reflexivity|exact E].
Qed.

Hypothesis Hcc : cc_ok cc.
Hypothesis Hdot : isspace cc DOT = false.

Lemma tidy_from_basic (s : str) (b : bool) :
  forallb (fun c => in_range 1072 1103 c || (c =? SPACE)%N || (c =? DOT)%N) s
  = true ->
  tidy_from cc b s = tidy_from basic b s.
Proof.
  revert b. induction s as [|c s IH]; intros b; [reflexivity|].
  cbn [forallb]. intros H. apply andb_true_iff in H as [Hc Hs].
  cbn [tidy_from]. rewrite !IH by assumption.
  assert (E : isspace cc c = isspace basic c).
  { apply orb_true_iff in Hc as [Hc|Hc];
      [apply orb_true_iff in Hc as [Hc|Hc]|].
    - destruct (ok_cyrillic cc Hcc c Hc) as (_ & _ & ->).
      destruct (ok_cyrillic basic basic_ok c Hc) as (_ & _ & ->).
      reflexivity.
    - apply N.eqb_eq in Hc as ->. now rewrite (ok_space cc Hcc).
    - apply N.eqb_eq in Hc as ->. now rewrite Hdot. }
  now rewrite E.
Qed.

Lemma upgraded_table_tidy :
  Forall (fun e => tidy_from cc true (fst e) = true
                   /\ tidy_from cc true (snd e) = true)
    Upgraded.abbreviations.
Proof.
  unfold Upgraded.abbreviations.
  repeat constructor; cbn [fst snd]; now rewrite tidy_from_basic.
Qed.

End TidyReplace.

Section Converters.
Variable cc : charclass.
Hypothesis Hcc : cc_ok cc.

Lemma upgraded_convert_cases (v : N) :
  In (Upgraded.convert_number_to_words v)
    [Upgraded.nol; Upgraded.odin; Upgraded.dva; Upgraded.tri;
     Upgraded.chetyre; Upgraded.pyat; Upgraded.shest; Upgraded.sem;
     Upgraded.vosem; Upgraded.devyat; Upgraded.desyat]
  \/ ((10 < v)%N /\ Upgraded.convert_number_to_words v = str_of_N v).
Proof.
  unfold Upgraded.convert_number_to_words.
  repeat match goal with
         | |- context [(v =? ?k)%N] =>
             destruct (N.eqb_spec v k); [left; cbn [In]; tauto|]
         end.
  right. split; [lia|reflexivity].
Qed.

Lemma upgraded_conversion_ok :
  conversion_ok cc Upgraded.convert_number_to_words.
Proof.
  intros v. destruct (upgraded_convert_cases v) as [Hin|[Hgt E]].
  - assert (Hw : Upgraded.convert_number_to_words v <> []
                 /\ forallb (in_range 1072 1103)
                      (Upgraded.convert_number_to_words v) = true).
    { revert Hin. generalize (Upgraded.convert_number_to_words v).
      intros w Hin. cbn [In] in Hin.
      repeat (destruct Hin as [<-|Hin]; [split; [discriminate|reflexivity]|]).
      contradiction. }
    destruct Hw as (Hne & Hcyr).
    destruct (cyrillic_word cc Hcc _ Hcyr) as (Hs & Hp & Hl).
    repeat split; try assumption. now left.
  - rewrite E.
    destruct (ascii_digits cc Hcc _ (uint_chars_ascii (N.to_uint v)))
      as (Hs & Hp & Hd).
    fold (str_of_N v) in Hs, Hp, Hd.
    repeat split; try assumption; [apply str_of_N_nonempty|].
    right. split; [assumption|].
    rewrite (int_of_str cc Hcc). exact E.
Qed.
End Converters.



Lemma upgraded_preprocess_tidy (cc : charclass) (text : str) :
  cc_ok cc -> isspace cc DOT = false ->
  tidy cc (Upgraded.preprocess_russian_text cc text) = true.
Proof.
  intros Hcc Hdot. unfold Upgraded.preprocess_russian_text.
  apply (tidy_sub_numbers cc _ Hcc (upgraded_conversion_ok cc Hcc)).
  apply tidy_replace_all; [now apply upgraded_table_tidy|].
  apply (collapse_strip_tidy cc (ok_space cc Hcc)).
Qed.





(** X5.  What the upgraded preprocessor returns is within whitespace
    policy: expanding abbreviations and converting numbers bring in no
    whitespace at either end and no second space between words. *)
Theorem upgraded_output_within_policy (cc : charclass) (text : str) :
  cc_ok cc -> isspace cc DOT = false ->
  tidy cc (Upgraded.preprocess_russian_text cc text) = true
  /\ begins_in (isspace cc) (Upgraded.preprocess_russian_text cc text)
     = false
  /\ ends_in (isspace cc) (Upgraded.preprocess_russian_text cc text)
     = false.
Proof.
  intros Hcc Hdot.
  pose proof (upgraded_preprocess_tidy cc text Hcc Hdot) as Ht.
  split; [exact Ht|]. split; [now apply tidy_begins|].
  destruct (Upgraded.preprocess_russian_text cc text) as [|c s];
    [reflexivity|].
  now apply (tidy_from_ends cc _ true).
Qed.

Lemma upgraded_output_within_policy_witness :
  tidy basic
    (Upgraded.preprocess_russian_text basic
       [32; 1080; 32; 1090; 46; 1076; 46; 32; 32; 53; 32]%N) = true
  /\ begins_in (isspace basic)
       (Upgraded.preprocess_russian_text basic
          [32; 1080; 32; 1090; 46; 1076; 46; 32; 32; 53; 32]%N) = false
  /\ ends_in (isspace basic)
       (Upgraded.preprocess_russian_text basic
          [32; 1080; 32; 1090; 46; 1076; 46; 32; 32; 53; 32]%N) = false.
Proof.
  apply (upgraded_output_within_policy basic).
  - exact basic_ok.
  - reflexivity.
Defined.

(* ================================================================= *)
(** ** Pauses before abbreviations (soft-voice server) *)

Lemma replace_mark (b c : char) (s : str) :
  replace [b] [b; SPACE] (c :: s)
  = if (b =? c)%N then b :: SPACE :: replace [b] [b; SPACE] s
    else c :: replace [b] [b; SPACE] s.
Proof.
  destruct (b =? c)%N eqn:E.
  - rewrite replace_hit by (cbn; now rewrite E). reflexivity.
  - rewrite replace_miss by (cbn; now rewrite E). reflexivity.
Qed.

Lemma stop_pass_spaces (s : str) :
  stops_spaced (replace [DOT] [DOT; SPACE] s) = true.
Proof.
  induction s as [|c s IH]; [reflexivity|].
  rewrite replace_mark. destruct (N.eqb_spec DOT c) as [<-|Hne].
  - cbn [stops_spaced]. now rewrite IH.
  - cbn [stops_spaced]. rewrite IH.
    destruct (N.eqb_spec c DOT); [congruence|reflexivity].
Qed.

Lemma other_pass_keeps (b : char) (s : str) :
  (b =? DOT)%N = false ->
  stops_spaced s = true ->
  stops_spaced (replace [b] [b; SPACE] s) = true.
Proof.
  intros Hb. induction s as [|c s IH]; [reflexivity|].
  cbn [stops_spaced]. intros H. apply andb_true_iff in H as [Hc Hs].
  specialize (IH Hs). rewrite replace_mark.
  destruct (N.eqb_spec b c) as [<-|Hne].
  - cbn [stops_spaced]. rewrite Hb. cbn. exact IH.
  - cbn [stops_spaced]. rewrite IH, andb_true_r.
    destruct (c =? DOT)%N; [|reflexivity].
    destruct s as [|x s]; [discriminate|].
    apply N.eqb_eq in Hc as ->. rewrite replace_mark.
    destruct (b =? SPACE)%N eqn:Eb; cbn; [exact Eb|reflexivity].
Qed.

Lemma add_pauses_spaced (s : str) :
  stops_spaced (SoftFemale.add_pauses s) = true.
Proof.
  unfold SoftFemale.add_pauses, SoftFemale.pauses, replace_all.
  cbn [fold_left fst snd].
  apply other_pass_keeps; [reflexivity|].
  apply other_pass_keeps; [reflexivity|].
  apply stop_pass_spaces.
Qed.

Lemma inner_stop_absent (pre post : str) (x : char) (s : str) :
  (x =? SPACE)%N = false ->
  stops_spaced s = true ->
  occurs (pre ++ DOT :: x :: post) s = false.
Proof.
  intros Hx Hs.
  destruct (occurs (pre ++ DOT :: x :: post) s) eqn:E; [|reflexivity].
  apply occurs_longer in E. exfalso. clear pre.
  induction s as [|c s IH]; [discriminate|].
  cbn [stops_spaced] in Hs. apply andb_true_iff in Hs as [Hc Hs].
  cbn [occurs] in E. apply orb_true_iff in E as [E|E]; [|now apply IH].
  cbn [starts_with] in E. apply andb_true_iff in E as [Ec E].
  apply N.eqb_eq in Ec as <-. rewrite N.eqb_refl in Hc.
  destruct s as [|y s]; [discriminate|].
  apply andb_true_iff in E as [Ey _]. apply N.eqb_eq in Ey as <-.
  congruence.
Qed.

(** X6.  In the soft-voice preprocessor the pauses are added before the
    abbreviations are expanded, so every full stop is followed by a
    space by then: the four abbreviations with a full stop inside
    ("т.д.", "т.п.", "и т.д.", "т.е.") occur in no text that reaches the
    expansion, and the preprocessor is the one whose table holds "др."
    and "г." only. *)
Theorem soft_inner_stop_abbreviations_idle (cc : charclass) (text : str) :
  let paused :=
    SoftFemale.add_pauses (collapse_whitespace cc (strip cc text)) in
  Forall (fun e => occurs (fst e) paused = false)
    (firstn 4 SoftFemale.abbreviations)
  /\ SoftFemale.expand_abbreviations paused
     = replace_all (skipn 4 SoftFemale.abbreviations) paused
  /\ SoftFemale.preprocess_russian_text cc text
     = sub_numbers cc SoftFemale.convert_number_to_words
         (replace_all (skipn 4 SoftFemale.abbreviations) paused).
Proof.
  intros paused.
  assert (Hs : stops_spaced paused = true) by apply add_pauses_spaced.
  assert (Habs : Forall (fun e => occurs (fst e) paused = false)
                   (firstn 4 SoftFemale.abbreviations)).
  { cbn [firstn SoftFemale.abbreviations]. repeat constructor; cbn [fst].
    - now apply (inner_stop_absent [1090]%N [46]%N 1076%N).
    - now apply (inner_stop_absent [1090]%N [46]%N 1087%N).
    - now apply (inner_stop_absent [1080; 32; 1090]%N [46]%N 1076%N).
    - now apply (inner_stop_absent [1090]%N [46]%N 1077%N). }
  assert (E : SoftFemale.expand_abbreviations paused
              = replace_all (skipn 4 SoftFemale.abbreviations) paused).
  { unfold SoftFemale.expand_abbreviations.
    rewrite <- (firstn_skipn 4 SoftFemale.abbreviations) at 1.
    assert (Happ : forall a b t,
               replace_all (a ++ b) t = replace_all b (replace_all a t))
      by (intros; apply fold_left_app).
    now rewrite Happ, (replace_all_absent _ _ Habs). }
  split; [exact Habs|]. split; [exact E|].
  unfold SoftFemale.preprocess_russian_text. fold paused. now rewrite E.
Qed.

(* ================================================================= *)
(** ** The cleaning preprocessors (optimised and old server) *)

Lemma Forall_pause_after (cc : charclass) (P : char -> bool)
    (Q : char -> Prop) (s : str) :
  Q SPACE -> Forall Q s -> forall b, Forall Q (pause_after_from cc P b s).
Proof.
  intros Hsp. induction 1 as [|c s Hc Hs IH]; intros b; [constructor|].
  cbn [pause_after_from]. destruct (b && isspace cc c); [apply IH|].
  destruct (P c); repeat constructor; trivial.
Qed.

Section Alphabet.
Variable cc : charclass.
Hypothesis Hspace : isspace cc SPACE = true.

Lemma keeps_space : keeps cc SPACE = true.
Proof. unfold keeps. rewrite Hspace. now rewrite orb_true_r. Qed.

Lemma cleaned_kept (text : str) :
  Forall (fun c => keeps cc c = true)
    (pause_after cc is_clause_mark
       (pause_after cc is_sentence_end (remove_other_punctuation cc text))).
Proof.
  unfold pause_after.
  apply Forall_pause_after; [apply keeps_space|].
  apply Forall_pause_after; [apply keeps_space|].
  apply Forall_forall. intros c Hc.
  now apply filter_In in Hc as [_ Hc].
Qed.

Lemma Forall_split_runs (P : char -> bool) (Q : char -> Prop) (s : str) :
  Forall Q s ->
  forall in_sep cur, Forall Q cur ->
    Forall (Forall Q) (split_runs_from P in_sep cur s).
Proof.
  induction 1 as [|c s Hc Hs IH]; intros in_sep cur Hcur;
    cbn [split_runs_from].
  - constructor; [now apply Forall_rev|constructor].
  - destruct (P c).
    + destruct in_sep; [now apply IH|].
      constructor; [now apply Forall_rev|]. apply IH. constructor.
    + apply IH. now constructor.
Qed.

Lemma Forall_join (Q : char -> Prop) (sep : str) (pieces : list str) :
  Forall Q sep -> Forall (Forall Q) pieces -> Forall Q (join sep pieces).
Proof.
  intros Hsep. induction 1 as [|p rest Hp Hrest IH]; [constructor|].
  cbn [join]. destruct rest as [|q rest]; [exact Hp|].
  apply Forall_app. split; [exact Hp|]. apply Forall_app. now split.
Qed.

Lemma Forall_firstn_of (A : Type) (Q : A -> Prop) (n : nat) (l : list A) :
  Forall Q l -> Forall Q (firstn n l).
Proof.
  intros H. revert n. induction H as [|x l Hx _ IH]; intros [|n];
    cbn [firstn]; constructor; trivial.
Qed.

Lemma Forall_rsplit (Q : char -> Prop) (s : str) :
  Forall Q s -> Forall Q (rsplit_space_head s).
Proof.
  intros H. destruct (rsplit_space_head_spec s) as [[_ ->]|(tail & E & _)];
    [exact H|].
  rewrite E in H. now apply Forall_app in H as [H _].
Qed.

End Alphabet.

Section OldTidy.
Variable cc : charclass.
Hypothesis Hspace : isspace cc SPACE = true.
Variable x : char.
Hypothesis Hx : isspace cc x = false.

Lemma collapse_before_nonspace (s : str) (b : bool) :
  tidy_from cc b (collapse_from cc b s ++ [x]) = true.
Proof.
  revert b. induction s as [|c s IH]; intros b.
  - cbn. now rewrite Hx.
  - cbn [collapse_from]. destruct (isspace cc c) eqn:Ec.
    + destruct b; [apply IH|]. cbn [app tidy_from].
      rewrite Hspace, N.eqb_refl. cbn [negb andb]. apply IH.
    + cbn [app tidy_from]. rewrite Ec. apply IH.
Qed.

Lemma lstrip_before_nonspace (u : str) (b : bool) :
  tidy_from cc b (u ++ [x]) = true ->
  tidy_from cc true (lstrip cc u ++ [x]) = true.
Proof.
  destruct u as [|c u].
  - intros _. cbn. now rewrite Hx.
  - cbn [app tidy_from lstrip]. destruct (isspace cc c) eqn:Ec.
    + intros H. apply andb_true_iff in H as [_ H].
      destruct u as [|c' u]; [exact H|].
      cbn [app tidy_from lstrip] in *.
      destruct (isspace cc c') eqn:Ec'; [discriminate|].
      cbn [app tidy_from]. now rewrite Ec'.
    + intros H. cbn [app tidy_from]. now rewrite Ec.
Qed.

Lemma rstrip_before_nonspace (v : str) (b : bool) :
  tidy_from cc b (v ++ [x]) = true ->
  rstrip cc v = [] \/ tidy_from cc b (rstrip cc v) = true.
Proof.
  revert b. induction v as [|c v IH]; intros b; [now left|].
  cbn [app tidy_from]. rewrite rstrip_cons.
  destruct (isspace cc c) eqn:Ec.
  - intros H. apply andb_true_iff in H as [Hb H].
    destruct (IH _ H) as [->|Ht]; [now left|].
    destruct (rstrip cc v) as [|y r]; [now left|]. right.
    cbn [tidy_from] in *. rewrite Ec. now rewrite Hb.
  - intros H. right. destruct (IH _ H) as [->|Ht].
    + cbn. now rewrite Ec.
    + destruct (rstrip cc v) as [|y r].
      * cbn. now rewrite Ec.
      * cbn [tidy_from] in *. now rewrite Ec.
Qed.

Lemma strip_collapse_tidy (s : str) :
  tidy cc (strip cc (collapse_whitespace cc s)) = true.
Proof.
  unfold strip, collapse_whitespace.
  pose proof (collapse_before_nonspace s false) as H.
  apply lstrip_before_nonspace in H.
  apply rstrip_before_nonspace in H as [->|H]; [reflexivity|].
  destruct (rstrip cc _); [reflexivity|exact H].
Qed.

Lemma tidy_from_cut (w : str) (s : str) :
  w <> [] -> Forall (fun c => isspace cc c = false) w ->
  forall b n, tidy_from cc b s = true ->
              tidy_from cc b (firstn n s ++ w) = true.
Proof.
  intros Hne Hw. induction s as [|c s IH]; intros b n H.
  - rewrite firstn_nil. cbn [app].
    rewrite <- (app_nil_r w). now rewrite tidy_from_nonspace.
  - destruct n as [|n].
    + cbn [firstn app]. rewrite <- (app_nil_r w).
      now rewrite tidy_from_nonspace.
    + cbn [firstn app tidy_from] in *. destruct (isspace cc c).
      * apply andb_true_iff in H as [-> H]. cbn [andb]. now apply IH.
      * now apply IH.
Qed.

End OldTidy.

(** X7.  Whatever the optimised or the old preprocessor returns is made
    of the characters the first substitution keeps: word characters,
    whitespace, and [. , ! ? ; : -]. *)
Theorem cleaning_keeps_alphabet (cc : charclass) (text : str) :
  isspace cc SPACE = true ->
  Forall (fun c => keeps cc c = true)
    (Optimized.preprocess_russian_text cc text)
  /\ Forall (fun c => keeps cc c = true)
       (Old.preprocess_russian_text cc text).
Proof.
  intros Hsp.
  pose proof (cleaned_kept cc Hsp text) as Hc.
  assert (Hdot : keeps cc DOT = true).
  { unfold keeps. rewrite N.eqb_refl. now rewrite !orb_true_r. }
  split.
  - unfold Optimized.preprocess_russian_text.
    destruct (Nat.ltb _ _); [|exact Hc].
    match goal with
    | |- context [join ?sep ?pieces] =>
        assert (Hj : Forall (fun c => keeps cc c = true) (join sep pieces))
    end.
    { apply Forall_join.
      - repeat constructor; [exact Hdot|now apply keeps_space].
      - apply Forall_firstn_of. apply Forall_split_runs; [exact Hc|].
        constructor. }
    destruct (Nat.ltb _ _); [|exact Hj].
    apply Forall_rsplit, Forall_firstn_of, Hj.
  - unfold Old.preprocess_russian_text.
    assert (Hs : Forall (fun c => keeps cc c = true)
                   (strip cc
                      (collapse_whitespace cc
                         (pause_after cc is_clause_mark
                            (pause_after cc is_sentence_end
                               (remove_other_punctuation cc text)))))).
    { apply Forall_strip. apply Forall_collapse; [now apply keeps_space|].
      exact Hc. }
    destruct (Nat.ltb _ _); [|exact Hs].
    apply Forall_app. split; [now apply Forall_firstn_of|].
    unfold Old.ellipsis. now repeat constructor.
Qed.

(** " a%b ,c " *)
Lemma cleaning_keeps_alphabet_witness :
  Forall (fun c => keeps basic c = true)
    (Optimized.preprocess_russian_text basic
       [32; 97; 37; 98; 32; 44; 99; 32]%N)
  /\ Forall (fun c => keeps basic c = true)
       (Old.preprocess_russian_text basic
          [32; 97; 37; 98; 32; 44; 99; 32]%N).
Proof.
  apply (cleaning_keeps_alphabet basic). reflexivity.
Defined.

(** X8.  The old preprocessor always returns a text within whitespace
    policy, of at most 503 characters: a cleaned text over 500 characters
    is cut to its first 500 and "..." is appended, so that the result is
    then 503 characters long, over the limit it enforces. *)
Theorem old_preprocess_tidy_and_bounded (cc : charclass) (text : str) :
  isspace cc SPACE = true -> isspace cc DOT = false ->
  tidy cc (Old.preprocess_russian_text cc text) = true
  /\ length (Old.preprocess_russian_text cc text) <= 503
  /\ (500 < length (Old.preprocess_russian_text cc text) ->
      length (Old.preprocess_russian_text cc text) = 503
      /\ skipn 500 (Old.preprocess_russian_text cc text) = Old.ellipsis).
Proof.
  intros Hsp Hdot. unfold Old.preprocess_russian_text.
  set (cleaned := strip cc (collapse_whitespace cc _)).
  assert (Ht : tidy cc cleaned = true)
    by apply (strip_collapse_tidy cc Hsp DOT Hdot).
  destruct (Nat.ltb 500 (length cleaned)) eqn:E.
  - apply Nat.ltb_lt in E.
    assert (Hl : length (firstn 500 cleaned) = 500)
      by (rewrite length_firstn; lia).
    split; [|split].
    + destruct cleaned as [|c cl] eqn:Ecl; [cbn in E; lia|].
      cbn [tidy] in Ht.
      pose proof (tidy_from_cut cc Old.ellipsis (c :: cl)
                    ltac:(discriminate)
                    ltac:(unfold Old.ellipsis; now repeat constructor)
                    true 500 Ht) as H.
      unfold tidy. destruct (firstn 500 (c :: cl) ++ Old.ellipsis);
        [reflexivity|exact H].
    + rewrite length_app, Hl. cbn. lia.
    + intros _. split; [rewrite length_app, Hl; reflexivity|].
      rewrite skipn_app, Hl, Nat.sub_diag.
      rewrite <- Hl at 1. now rewrite skipn_all.
  - apply Nat.ltb_ge in E. split; [exact Ht|]. split; [lia|]. lia.
Qed.

(** " a ,b. " *)
Lemma old_preprocess_tidy_and_bounded_witness :
  tidy basic (Old.preprocess_russian_text basic [32; 97; 32; 44; 98; 46; 32]%N)
  = true
  /\ length (Old.preprocess_russian_text basic
               [32; 97; 32; 44; 98; 46; 32]%N) <= 503
  /\ (500 < length (Old.preprocess_russian_text basic
                      [32; 97; 32; 44; 98; 46; 32]%N) ->
      length (Old.preprocess_russian_text basic
                [32; 97; 32; 44; 98; 46; 32]%N) = 503
      /\ skipn 500 (Old.preprocess_russian_text basic
                      [32; 97; 32; 44; 98; 46; 32]%N) = Old.ellipsis).
Proof.
  apply (old_preprocess_tidy_and_bounded basic); reflexivity.
Defined.

(* ================================================================= *)
(** ** Spaces after punctuation marks *)

Section Pauses.
Variable cc : charclass.
Hypothesis Hspace : isspace cc SPACE = true.

Section OneClass.
Variable P : char -> bool.
Hypothesis HP : forall c, P c = true -> isspace cc c = false.

Lemma mark_not_space : P SPACE = false.
Proof.
  destruct (P SPACE) eqn:E; [|reflexivity].
  apply HP in E. congruence.
Qed.

(** What the pass returns has every mark followed by one space and no
    further whitespace. *)
Lemma pause_after_spaced (s : str) (b : bool) :
  spaced_from cc P b (pause_after_from cc P b s) = true.
Proof.
  revert b. induction s as [|c s IH]; intros b; [reflexivity|].
  cbn [pause_after_from]. destruct (b && isspace cc c) eqn:Eb.
  - apply andb_true_iff in Eb as [-> _]. apply IH.
  - destruct (P c) eqn:Ec.
    + cbn [spaced_from]. rewrite Eb, Ec, N.eqb_refl. apply IH.
    + cbn [spaced_from]. rewrite Eb, Ec. apply IH.
Qed.

(** Such a text is left as it is. *)
Lemma spaced_pause_after (n : nat) :
  forall s b, length s <= n -> spaced_from cc P b s = true ->
              pause_after_from cc P b s = s.
Proof.
  induction n as [|n IH]; intros s b Hlen.
  - destruct s; [reflexivity|cbn in Hlen; lia].
  - destruct s as [|c s]; [reflexivity|]. cbn [length] in Hlen.
    cbn [spaced_from pause_after_from].
    destruct (b && isspace cc c); [discriminate|].
    destruct (P c).
    + destruct s as [|x s]; [discriminate|]. intros H.
      apply andb_true_iff in H as [Hx Hs]. apply N.eqb_eq in Hx as ->.
      cbn [pause_after_from]. rewrite Hspace. cbn [andb].
      cbn [length] in Hlen. now rewrite IH by (lia || assumption).
    + intros H. now rewrite IH by (lia || assumption).
Qed.

Lemma pause_after_from_idempotent (s : str) (b : bool) :
  pause_after_from cc P b (pause_after_from cc P b s)
  = pause_after_from cc P b s.
Proof.
  apply (spaced_pause_after (length (pause_after_from cc P b s)));
    [apply le_n|apply pause_after_spaced].
Qed.

Lemma spaced_at (n : nat) :
  forall s b a c rest,
    length s <= n -> spaced_from cc P b s = true ->
    s = a ++ c :: rest -> P c = true ->
    exists rest', rest = SPACE :: rest'
                  /\ begins_in (isspace cc) rest' = false.
Proof.
  induction n as [|n IH]; intros s b a c rest Hlen Hs E Hc.
  - destruct s; [destruct a; discriminate|cbn in Hlen; lia].
  - destruct s as [|c0 s]; [destruct a; discriminate|].
    cbn [length] in Hlen. cbn [spaced_from] in Hs.
    destruct (b && isspace cc c0); [discriminate|].
    destruct a as [|a0 a].
    + cbn [app] in E. injection E as -> ->. rewrite Hc in Hs.
      destruct rest as [|x rest']; [discriminate|].
      apply andb_true_iff in Hs as [Hx Hs]. apply N.eqb_eq in Hx as ->.
      exists rest'. split; [reflexivity|].
      destruct rest' as [|y rest'']; [reflexivity|].
      cbn [spaced_from andb] in Hs. cbn [begins_in].
      destruct (isspace cc y); [discriminate|reflexivity].
    + cbn [app] in E. injection E as -> ->.
      destruct (P a0).
      * destruct a as [|a1 a]; cbn [app] in Hs.
        -- apply andb_true_iff in Hs as [Hx _]. apply N.eqb_eq in Hx as ->.
           now rewrite mark_not_space in Hc.
        -- apply andb_true_iff in Hs as [_ Hs].
           apply (IH (a ++ c :: rest) true a c rest); trivial.
           cbn [length app] in Hlen. lia.
      * apply (IH (a ++ c :: rest) false a c rest); trivial. lia.
Qed.

End OneClass.

(** A pass for other marks keeps the spacing of the first ones. *)
Lemma spaced_other_pass (P1 P2 : char -> bool) :
  (forall c, P1 c = true -> isspace cc c = false) ->
  (forall c, P2 c = true -> isspace cc c = false) ->
  (forall c, P1 c = true -> P2 c = false) ->
  forall n s, length s <= n ->
    (forall b, spaced_from cc P1 b s = true ->
               spaced_from cc P1 b (pause_after_from cc P2 false s) = true)
    /\ (spaced_from cc P1 false s = true ->
        spaced_from cc P1 false (pause_after_from cc P2 true s) = true).
Proof.
  intros H1 H2 H12.
  pose proof (mark_not_space P1 H1) as Hs1.
  pose proof (mark_not_space P2 H2) as Hs2.
  induction n as [|n IH]; intros s Hlen.
  - destruct s; [split; trivial|cbn in Hlen; lia].
  - destruct s as [|c s]; [split; trivial|]. cbn [length] in Hlen.
    assert (Hlen' : length s <= n) by lia.
    destruct (IH s Hlen') as [IHi IHii].
    assert (Hmark : P1 c = true -> forall b, 
               spaced_from cc P1 b (c :: s) = true ->
               spaced_from cc P1 b
                 (c :: pause_after_from cc P2 false s) = true).
    { intros Hc b. cbn [spaced_from]. rewrite Hc.
      destruct (b && isspace cc c); [discriminate|].
      destruct s as [|x s]; [discriminate|]. intros H.
      apply andb_true_iff in H as [Hx Hs]. apply N.eqb_eq in Hx as ->.
      cbn [pause_after_from andb]. rewrite Hs2, N.eqb_refl. cbn [andb].
      cbn [length] in Hlen'. apply (IH s); [lia|exact Hs]. }
    split.
    + intros b Hs. cbn [pause_after_from andb].
      destruct (P1 c) eqn:Ec1.
      * rewrite (H12 c Ec1). now apply Hmark.
      * cbn [spaced_from] in Hs. rewrite Ec1 in Hs.
        destruct (b && isspace cc c) eqn:Eb; [discriminate|].
        destruct (P2 c).
        -- cbn [spaced_from]. rewrite Eb, Ec1, Hs1. cbn [andb].
           now apply IHii.
        -- cbn [spaced_from]. rewrite Eb, Ec1. now apply IHi.
    + intros Hs. cbn [pause_after_from andb].
      destruct (isspace cc c) eqn:Esp.
      * cbn [spaced_from andb] in Hs.
        destruct (P1 c) eqn:Ec1; [apply H1 in Ec1; congruence|].
        now apply IHii.
      * destruct (P1 c) eqn:Ec1.
        -- rewrite (H12 c Ec1). now apply Hmark.
        -- cbn [spaced_from andb] in Hs. rewrite Ec1 in Hs.
           destruct (P2 c).
           ++ cbn [spaced_from andb]. rewrite Ec1, Hs1. now apply IHii.
           ++ cbn [spaced_from andb]. rewrite Ec1. now apply IHi.
Qed.

End Pauses.

Lemma filter_kept (A : Type) (f : A -> bool) (l : list A) :
  Forall (fun x => f x = true) l -> filter f l = l.
Proof.
  induction 1 as [|x l Hx _ IH]; [reflexivity|].
  cbn [filter]. now rewrite Hx, IH.
Qed.

Lemma basic_marks_ok : marks_ok basic.
Proof.
  split; [reflexivity|]. intros c H.
  unfold is_sentence_end, is_clause_mark in H.
  repeat (apply orb_true_iff in H as [H|H]);
    apply N.eqb_eq in H as ->; reflexivity.
Qed.

Section Cleaned.
Variable cc : charclass.
Hypothesis Hok : marks_ok cc.

Lemma sentence_end_nonspace (c : char) :
  is_sentence_end c = true -> isspace cc c = false.
Proof.
  intros H. apply (marks_nonspace cc Hok). now rewrite H.
Qed.

Lemma clause_mark_nonspace (c : char) :
  is_clause_mark c = true -> isspace cc c = false.
Proof.
  intros H. apply (marks_nonspace cc Hok). rewrite H. apply orb_true_r.
Qed.

Lemma sentence_end_no_clause_mark (c : char) :
  is_sentence_end c = true -> is_clause_mark c = false.
Proof.
  unfold is_sentence_end, is_clause_mark, DOT, BANG, QUESTION, COMMA,
    SEMICOLON, COLON.
  intros H. repeat (apply orb_true_iff in H as [H|H]);
    apply N.eqb_eq in H as ->; reflexivity.
Qed.

Lemma cleaned_spaced (text : str) :
  let cleaned :=
    pause_after cc is_clause_mark
      (pause_after cc is_sentence_end (remove_other_punctuation cc text)) in
  spaced_from cc is_sentence_end false cleaned = true
  /\ spaced_from cc is_clause_mark false cleaned = true.
Proof.
  cbv zeta. split.
  - unfold pause_after at 1.
    eapply (spaced_other_pass cc (marks_space cc Hok)
              is_sentence_end is_clause_mark
              sentence_end_nonspace clause_mark_nonspace
              sentence_end_no_clause_mark); [apply le_n|].
    apply pause_after_spaced.
  - apply pause_after_spaced.
Qed.

Lemma cleaned_fixed (text : str) :
  let cleaned :=
    pause_after cc is_clause_mark
      (pause_after cc is_sentence_end (remove_other_punctuation cc text)) in
  pause_after cc is_clause_mark
    (pause_after cc is_sentence_end (remove_other_punctuation cc cleaned))
  = cleaned.
Proof.
  intros cleaned. destruct (cleaned_spaced text) as [H1 H2].
  fold cleaned in H1, H2.
  unfold remove_other_punctuation at 1.
  rewrite filter_kept by apply (cleaned_kept cc (marks_space cc Hok)).
  fold cleaned.
  unfold pause_after.
  rewrite (spaced_pause_after cc (marks_space cc Hok) is_sentence_end
             (length cleaned) cleaned false (le_n _) H1).
  apply (spaced_pause_after cc (marks_space cc Hok) is_clause_mark
           (length cleaned) cleaned false (le_n _) H2).
Qed.

End Cleaned.

(** X9.  On a text whose cleaned form is within the budget of 500
    characters the optimised preprocessor is idempotent: nothing is left
    to remove, and every mark has its one space already. *)
Theorem optimized_idempotent_within_budget (cc : charclass) (text : str) :
  marks_ok cc ->
  length (pause_after cc is_clause_mark
            (pause_after cc is_sentence_end
               (remove_other_punctuation cc text)))
  <= Optimized.max_length ->
  Optimized.preprocess_russian_text cc
    (Optimized.preprocess_russian_text cc text)
  = Optimized.preprocess_russian_text cc text.
Proof.
  intros Hok Hlen.
  assert (E : Optimized.preprocess_russian_text cc text
              = pause_after cc is_clause_mark
                  (pause_after cc is_sentence_end
                     (remove_other_punctuation cc text))).
  { unfold Optimized.preprocess_russian_text.
    apply Nat.ltb_ge in Hlen. now rewrite Hlen. }
  rewrite E. unfold Optimized.preprocess_russian_text.
  rewrite (cleaned_fixed cc Hok text).
  apply Nat.ltb_ge in Hlen. now rewrite Hlen.
Qed.

(** "a ,b.  c!d" *)
Lemma optimized_idempotent_within_budget_witness :
  Optimized.preprocess_russian_text basic
    (Optimized.preprocess_russian_text basic
       [97; 32; 44; 98; 46; 32; 32; 99; 33; 100]%N)
  = Optimized.preprocess_russian_text basic
      [97; 32; 44; 98; 46; 32; 32; 99; 33; 100]%N.
Proof.
  apply (optimized_idempotent_within_budget basic).
  - exact basic_marks_ok.
  - vm_compute. lia.
Defined.

(** X10.  In what the optimised preprocessor returns for a text whose
    cleaned form is within budget, each of the marks [. ! ? , ; :] is
    followed by exactly one space and then by no further whitespace. *)
Theorem optimized_marks_spaced (cc : charclass) (text : str) :
  marks_ok cc ->
  length (pause_after cc is_clause_mark
            (pause_after cc is_sentence_end
               (remove_other_punctuation cc text)))
  <= Optimized.max_length ->
  forall before c rest,
    Optimized.preprocess_russian_text cc text = before ++ c :: rest ->
    is_sentence_end c || is_clause_mark c = true ->
    exists rest', rest = SPACE :: rest'
                  /\ begins_in (isspace cc) rest' = false.
Proof.
  intros Hok Hlen before c rest E Hc.
  assert (E' : Optimized.preprocess_russian_text cc text
              = pause_after cc is_clause_mark
                  (pause_after cc is_sentence_end
                     (remove_other_punctuation cc text))).
  { unfold Optimized.preprocess_russian_text.
    apply Nat.ltb_ge in Hlen. now rewrite Hlen. }
  destruct (cleaned_spaced cc Hok text) as [H1 H2].
  rewrite <- E' in H1, H2.
  apply orb_true_iff in Hc as [Hc|Hc].
  - eapply (spaced_at cc (marks_space cc Hok) is_sentence_end
              (sentence_end_nonspace cc Hok));
      [apply le_n|exact H1|exact E|exact Hc].
  - eapply (spaced_at cc (marks_space cc Hok) is_clause_mark
              (clause_mark_nonspace cc Hok));
      [apply le_n|exact H2|exact E|exact Hc].
Qed.

(** "a,  b" gives "a, b". *)
Lemma optimized_marks_spaced_witness :
  exists rest', [32; 98]%N = SPACE :: rest'
                /\ begins_in (isspace basic) rest' = false.
Proof.
  apply (optimized_marks_spaced basic [97; 44; 32; 32; 98]%N
           basic_marks_ok ltac:(vm_compute; lia) [97]%N 44%N [32; 98]%N).
  - reflexivity.
  - reflexivity.
Defined.

(* ================================================================= *)
(** ** More on the audio chain *)

Section Compression.
Local Open Scope Q_scope.


Lemma exact_sign_abs (x : Q) : sign x * Qabs x == x.
Proof.
  destruct x as [[|p|p] d]; cbn [sign exact_arith Qnum].
  - reflexivity.
  - change (Qabs (Z.pos p # d)) with (Z.pos p # d). ring.
  - change (Qabs (Z.neg p # d)) with (Z.pos p # d).
    unfold Qeq, Qmult, Qnum, Qden. cbn. lia.
Qed.








End Compression.

Section Reverb.
Context {A : Type} `{Arith A}.

Lemma zip_with_length (f : A -> A -> A) (xs ys : list A) :
  length (zip_with f xs ys) = Nat.min (length xs) (length ys).
Proof.
  revert ys. induction xs as [|x xs IH]; intros [|y ys]; cbn; auto.
Qed.

Lemma zip_with_nth (f : A -> A -> A) (xs ys : list A) (i : nat) (z : A) :
  i < length xs -> i < length ys ->
  nth i (zip_with f xs ys) z = f (nth i xs z) (nth i ys z).
Proof.
  revert xs ys. induction i as [|i IH]; intros [|x xs] [|y ys]; cbn;
    try lia; [reflexivity|].
  intros Hx Hy. apply IH; lia.
Qed.

Lemma add_reverb_length (d : nat) (xs ys : list A) :
  add_reverb d xs = Ok ys -> length ys = length xs.
Proof.
  unfold add_reverb. destruct (Nat.ltb d (length xs)) eqn:E.
  - apply Nat.ltb_lt in E. destruct d as [|d]; [discriminate|].
    set (e := firstn (S d) xs ++ _). intros [= <-]. subst e.
    rewrite length_app, length_firstn, zip_with_length,
      length_skipn, length_firstn. lia.
  - now intros [= <-].
Qed.

(** X12.  With a delay of at least one sample [add_reverb] returns as
    many samples as it was given: the first [delay] ones unchanged, and
    each later one with 0.15 times the sample [delay] places earlier
    added to it.  With a delay of zero samples (a sample rate under 50)
    it raises on every input that is not empty. *)
Theorem add_reverb_echo (d : nat) (xs : list A) (z : A) :
  (exists ys,
      add_reverb (S d) xs = Ok ys
      /\ length ys = length xs
      /\ (forall i, i < S d -> nth i ys z = nth i xs z)
      /\ (forall i, S d <= i < length xs ->
            nth i ys z
            = add (nth i xs z) (mul (nth (i - S d) xs z) (cst (15 # 100)))))
  /\ (xs <> [] -> add_reverb 0 xs = ValueError).
Proof.
  split.
  - destruct (add_reverb (S d) xs) as [ys|] eqn:E.
    + exists ys. split; [reflexivity|].
      split; [now apply add_reverb_length in E|].
      unfold add_reverb in E.
      destruct (Nat.ltb (S d) (length xs)) eqn:El.
      * apply Nat.ltb_lt in El.
        set (e := firstn (S d) xs ++ _) in E. injection E as <-. subst e.
        split.
        -- intros i Hi. rewrite app_nth1 by (rewrite length_firstn; lia).
           rewrite nth_firstn.
           destruct (Nat.ltb_spec i (S d)); [reflexivity|lia].
        -- intros i Hi. rewrite app_nth2 by (rewrite length_firstn; lia).
           rewrite length_firstn.
           replace (Nat.min (S d) (length xs)) with (S d) by lia.
           rewrite zip_with_nth
             by (rewrite ?length_skipn, ?length_firstn; lia).
           rewrite nth_skipn, nth_firstn.
           replace (S d + (i - S d)) with i by lia.
           destruct (Nat.ltb_spec (i - S d) (length xs - S d));
             [reflexivity|lia].
      * apply Nat.ltb_ge in El. injection E as <-. split; [reflexivity|].
        intros i Hi. lia.
    + exfalso. unfold add_reverb in E.
      destruct (Nat.ltb (S d) (length xs)); discriminate.
  - intros Hne. unfold add_reverb. destruct xs; [congruence|reflexivity].
Qed.

(** X13.  When [enhance_voice_quality] returns, it returns
    [int(n / 1.08)] samples for a waveform of [n]: resampling sets the
    length, and filtering, compression, reverb, normalisation and
    saturation keep it. *)
Theorem enhance_length
    (resample : list A -> nat -> list A) (sosfilt : Z -> list A -> list A)
    (tanh : A -> A) (audio out : list A) (sample_rate : Z) :
  length (resample audio (new_length (length audio)))
    = new_length (length audio) ->
  (forall xs, length (sosfilt sample_rate xs) = length xs) ->
  enhance_voice_quality resample sosfilt tanh audio sample_rate = Ok out ->
  length out = new_length (length audio).
Proof.
  intros Hres Hsos. unfold enhance_voice_quality, after_filter.
  destruct (add_reverb _ _) as [reverb|] eqn:Er; [|discriminate].
  apply add_reverb_length in Er.
  unfold normalize_peak. destruct (amax _); [|discriminate].
  intros [= <-]. unfold saturate. rewrite !length_map, Er.
  unfold compress. now rewrite length_map, Hsos, Hres.
Qed.

End Reverb.

Lemma enhance_length_witness :
  exists out,
    enhance_voice_quality decimate pass_through softsign
      [1 # 2; - (1 # 4); 1 # 8; 1 # 16]%Q 22050 = Ok out
    /\ length out = new_length 4.
Proof.
  eexists. split; [vm_compute; reflexivity|].
  apply (enhance_length decimate pass_through softsign
           [1 # 2; - (1 # 4); 1 # 8; 1 # 16]%Q _ 22050).
  - reflexivity.
  - reflexivity.
  - vm_compute. reflexivity.
Defined.

Section UnitPeak.
Local Open Scope Q_scope.


End UnitPeak.


(** X15.  The same division has no test for a zero maximum: on IEEE
    doubles a silent waveform of any positive length comes out as NaN
    throughout, and an empty one raises. *)
Theorem upgraded_silence_gives_nan (n : nat) :
  Endpoint.normalize_unit (repeat 0%float (S n)) = Ok (repeat nan (S n))
  /\ Endpoint.normalize_unit (@nil float) = ValueError.
Proof.
  split; [|reflexivity].
  unfold Endpoint.normalize_unit. rewrite amax_zeros. f_equal.
  induction n as [|n IH]; [reflexivity|].
  change (repeat 0%float (S (S n))) with (0%float :: repeat 0%float (S n)).
  rewrite map_cons, IH. reflexivity.
Qed.

(* ================================================================= *)
(** ** More on guarded inference *)

Lemma guarded_state {T U} (model : nat -> outcome T) (post : T -> U)
    (language : option str) (st : state) :
  let st' := snd (gpu_memory_manager (guarded_call model post language) st) in
  calls st' = S (calls st)
  /\ model_name st' = model_name st
  /\ cuda_available st' = cuda_available st.
Proof.
  cbv zeta. unfold gpu_memory_manager, guarded_call, sweep.
  destruct (model (calls st)); cbn; destruct (cuda_available st) eqn:Ec;
    cbn; repeat split; exact Ec.
Qed.

(** X16.  Whatever the model does - return, run out of memory, raise -
    [transcribe_audio] and [generate_speech] call it exactly once and
    leave the active model and the CUDA flag as they were. *)
Theorem guarded_inference_invariants :
  (forall cc model language st,
      let st' := snd (transcribe_audio cc model language st) in
      calls st' = S (calls st)
      /\ model_name st' = model_name st
      /\ cuda_available st' = cuda_available st)
  /\ (forall W cc (model : str -> nat -> outcome W) text st,
        let st' := snd (generate_speech cc model text st) in
        calls st' = S (calls st)
        /\ model_name st' = model_name st
        /\ cuda_available st' = cuda_available st).
Proof.
  split; intros; apply guarded_state.
Qed.

Lemma guarded_reraise {T U} (model : nat -> outcome T) (post : T -> U)
    (language : option str) (st : state) (msg : str) :
  model (calls st) = Raises msg ->
  fst (gpu_memory_manager (guarded_call model post language) st)
  = inr (Reraised msg)
  /\ trace (snd (gpu_memory_manager (guarded_call model post language) st))
     = trace st ++ [ModelCall (model_name st) language]
       ++ sweep_events (cuda_available st).
Proof.
  intros E. unfold gpu_memory_manager, guarded_call, sweep, sweep_events.
  rewrite E. cbn. split; [reflexivity|].
  destruct (cuda_available st); cbn; now rewrite <- ?app_assoc.
Qed.

(** X17.  An exception of the model other than resource exhaustion is
    re-raised as it is: no emergency cleanup is run, only the sweep of
    [gpu_memory_manager] follows the call. *)
Theorem model_error_reraised (cc : charclass) (model : nat -> outcome str)
    (language : str) (st : state) (msg : str) :
  model (calls st) = Raises msg ->
  (fst (transcribe_audio cc model language st) = inr (Reraised msg)
   /\ trace (snd (transcribe_audio cc model language st))
      = trace st ++ [ModelCall (model_name st) (Some language)]
        ++ sweep_events (cuda_available st))
  /\ (forall text,
        fst (generate_speech cc (fun _ => model) text st)
        = inr (Reraised msg)
        /\ trace (snd (generate_speech cc (fun _ => model) text st))
           = trace st ++ [ModelCall (model_name st) None]
             ++ sweep_events (cuda_available st)).
Proof.
  intros E. split; [|intros text]; now apply guarded_reraise.
Qed.

Lemma model_error_reraised_witness :
  (fst (transcribe_audio basic always_fails ru fresh)
   = inr (Reraised ok_text)
   /\ trace (snd (transcribe_audio basic always_fails ru fresh))
      = [] ++ [ModelCall Base (Some ru)] ++ sweep_events true)
  /\ (forall text,
        fst (generate_speech basic (fun _ => always_fails) text fresh)
        = inr (Reraised ok_text)
        /\ trace (snd (generate_speech basic (fun _ => always_fails) text
                         fresh))
           = [] ++ [ModelCall Base None] ++ sweep_events true).
Proof.
  apply (model_error_reraised basic always_fails ru fresh ok_text).
  reflexivity.
Defined.

(** X18.  The transcript [transcribe_audio] returns is the text of the
    model stripped: it neither begins nor ends with whitespace, and
    stripping it again changes nothing. *)
Theorem transcript_is_stripped (cc : charclass) (model : nat -> outcome str)
    (language : str) (st : state) (raw : str) :
  model (calls st) = Returns raw ->
  exists text,
    fst (transcribe_audio cc model language st) = inl text
    /\ text = strip cc raw
    /\ begins_in (isspace cc) text = false
    /\ ends_in (isspace cc) text = false
    /\ strip cc text = text.
Proof.
  intros E. exists (strip cc raw).
  unfold transcribe_audio, gpu_memory_manager, guarded_call.
  rewrite E. cbn [fst]. split; [reflexivity|]. split; [reflexivity|].
  assert (Hb : begins_in (isspace cc) (strip cc raw) = false)
    by apply rstrip_begins, lstrip_begins.
  assert (He : ends_in (isspace cc) (strip cc raw) = false)
    by apply rstrip_ends.
  split; [exact Hb|]. split; [exact He|].
  unfold strip at 1.
  assert (Hl : lstrip cc (strip cc raw) = strip cc raw).
  { destruct (strip cc raw) as [|c s]; [reflexivity|].
    cbn [begins_in] in Hb. cbn [lstrip]. now rewrite Hb. }
  rewrite Hl. generalize dependent (strip cc raw). clear.
  intros s _ He _. induction s as [|c s IH]; [reflexivity|].
  rewrite rstrip_cons. destruct s as [|c' s].
  - cbn in He. cbn. now rewrite He.
  - rewrite IH by exact He. reflexivity.
Qed.

Lemma transcript_is_stripped_witness :
  exists text,
    fst (transcribe_audio basic always_ok ru fresh)
    = inl text
    /\ text = strip basic ok_text
    /\ begins_in (isspace basic) text = false
    /\ ends_in (isspace basic) text = false
    /\ strip basic text = text.
Proof.
  apply (transcript_is_stripped basic always_ok ru fresh).
  reflexivity.
Defined.

(** X19.  At load time the tiny model is tried exactly when loading the
    base model ran out of memory: a base model that loads is kept, any
    other failure of its load is raised at once, and a failure of the
    tiny model is raised as well, exhaustion included. *)
Theorem load_whisper_fallback (load : model_id -> outcome unit)
    (st : state) :
  let run := load_whisper load st in
  match load Base with
  | Returns _ =>
      fst run = inl tt /\ model_name (snd run) = Base
      /\ loads (trace (snd run)) = loads (trace st) ++ [Base]
  | Raises msg =>
      fst run = inr (Reraised msg)
      /\ model_name (snd run) = model_name st
      /\ loads (trace (snd run)) = loads (trace st) ++ [Base]
  | OutOfMemoryError =>
      loads (trace (snd run)) = loads (trace st) ++ [Base; Tiny]
      /\ match load Tiny with
         | Returns _ => fst run = inl tt /\ model_name (snd run) = Tiny
         | OutOfMemoryError =>
             fst run = inr UncaughtOutOfMemory
             /\ model_name (snd run) = model_name st
         | Raises msg =>
             fst run = inr (Reraised msg)
             /\ model_name (snd run) = model_name st
         end
  end.
Proof.
  cbv zeta. unfold load_whisper, loads.
  destruct (load Base); [| destruct (load Tiny) |];
    destruct (cuda_available st) eqn:Ec; cbn; rewrite ?Ec; cbn;
    rewrite ?flat_map_app; cbn; rewrite <- ?app_assoc, ?app_nil_r;
    repeat split.
Qed.

(* ================================================================= *)
(** ** The handlers: temporary files, rejected requests *)

Lemma fresh_name_new (d : Endpoint.disk) : ~ In (Endpoint.fresh_name d) d.
Proof.
  intros Hin. unfold Endpoint.fresh_name in Hin.
  assert (H : Forall (fun k => k <= list_max d) d)
    by now apply list_max_le.
  rewrite Forall_forall in H. apply H in Hin. lia.
Qed.

Lemma remove_file_absent (name : nat) (d : Endpoint.disk) :
  ~ In name d -> Endpoint.remove_file name d = d.
Proof.
  unfold Endpoint.remove_file. induction d as [|f d IH]; [reflexivity|].
  intros Hn. cbn [filter]. destruct (Nat.eqb_spec f name) as [->|Hne].
  - exfalso. apply Hn. now left.
  - cbn [negb]. rewrite IH; [reflexivity|]. intros Hin. apply Hn. now right.
Qed.

Lemma remove_created (d : Endpoint.disk) :
  Endpoint.remove_file (Endpoint.fresh_name d) (Endpoint.fresh_name d :: d) = d.
Proof.
  unfold Endpoint.remove_file. cbn [filter]. rewrite Nat.eqb_refl. cbn [negb].
  apply remove_file_absent, fresh_name_new.
Qed.

Lemma exists_created (d : Endpoint.disk) :
  Endpoint.exists_file (Endpoint.fresh_name d) (Endpoint.fresh_name d :: d) = true.
Proof. unfold Endpoint.exists_file. cbn [existsb]. now rewrite Nat.eqb_refl. Qed.

Lemma transcribe_saved_disk (cc : charclass) (model : nat -> outcome str)
    (form_language : option str) (d : Endpoint.disk) (st : state) :
  Endpoint.transcribe_saved cc model form_language d st
  = (fst (transcribe_endpoint cc model form_language st), d,
     snd (transcribe_endpoint cc model form_language st)).
Proof.
  unfold Endpoint.transcribe_saved, Endpoint.create_temp.
  destruct (transcribe_endpoint cc model form_language st) as [r st'].
  now rewrite exists_created, remove_created.
Qed.

(** X20.  Both transcription endpoints of the optimised server leave the
    temporary directory as they found it, whether the request was
    rejected, transcribed, or its transcription raised: the saved upload
    is removed in a [finally] block. *)
Theorem transcribe_optimized_leaves_no_file (cc : charclass)
    (model : nat -> outcome str) (file : option Endpoint.upload)
    (form_language : option str) (d : Endpoint.disk) (st : state) :
  snd (fst (Endpoint.transcribe_optimized cc model file form_language d st)) = d
  /\ snd (fst (Endpoint.transcribe_custom cc model file form_language d st)) = d.
Proof.
  unfold Endpoint.transcribe_optimized, Endpoint.transcribe_custom.
  rewrite transcribe_saved_disk.
  destruct (transcribe_endpoint cc model form_language st) as [[text|e] st'].
  - destruct file as [f|]; [|now split]. cbn [fst snd].
    destruct (Endpoint.filename f); now split.
  - destruct file as [f|]; [|now split]. cbn [fst snd].
    destruct (Endpoint.filename f); now split.
Qed.

(** X21.  The optimised endpoint rejects a request without a file, or
    with a file of empty name, before anything is done; any other
    request reaches the model once, with the language of the form or
    "ru" when the form has none. *)
Theorem transcribe_optimized_validation (cc : charclass)
    (model : nat -> outcome str) (file : option Endpoint.upload)
    (form_language : option str) (d : Endpoint.disk) (st : state) :
  let '(response, _, st') :=
    Endpoint.transcribe_optimized cc model file form_language d st in
  match file with
  | None => response = Endpoint.NoAudioFile /\ st' = st
  | Some f =>
      match Endpoint.filename f with
      | [] => response = Endpoint.NoFileSelected /\ st' = st
      | _ :: _ =>
          calls st' = S (calls st)
          /\ exists rest,
               trace st'
               = trace st
                 ++ ModelCall (model_name st)
                      (Some (match form_language with
                             | Some l => l
                             | None => default_language
                             end)) :: rest
      end
  end.
Proof.
  unfold Endpoint.transcribe_optimized. rewrite transcribe_saved_disk.
  destruct file as [f|]; [|now split].
  destruct (Endpoint.filename f) as [|c name]; [now split|].
  unfold transcribe_endpoint, transcribe_audio.
  set (language := match form_language with Some l => l | None => _ end).
  destruct (guarded_trace model (strip cc) (Some language) st) as (h & Hh).
  assert (Hc : calls (snd (gpu_memory_manager
                             (guarded_call model (strip cc) (Some language))
                             st)) = S (calls st)).
  { unfold gpu_memory_manager, guarded_call, sweep.
    destruct (model (calls st)); cbn; destruct (cuda_available st);
      reflexivity. }
  destruct (gpu_memory_manager _ st) as [[text|e] st']; cbn [fst snd] in *;
    (split; [exact Hc|eexists; exact Hh]).
Qed.

(** X22.  The plain transcription endpoint removes its temporary file
    only when the model returned: a request whose transcription fails
    leaves one more file on disk. *)
Theorem transcribe_plain_leaks_on_failure (cc : charclass)
    (model : Stt.transcribe_call -> outcome (str * option str))
    (f : Endpoint.upload) (form_language : option str) (sv : Endpoint.stt_service) :
  let '(response, sv') :=
    Endpoint.transcribe_plain cc model (Some f) form_language sv in
  match model (Stt.transcribe form_language) with
  | Returns (text, _) =>
      (exists language, response = Endpoint.Transcript (strip cc text) language)
      /\ Endpoint.stt_files sv' = Endpoint.stt_files sv
  | _ =>
      (exists e, response = Endpoint.TranscriptionFailed e)
      /\ Endpoint.stt_files sv'
         = Endpoint.fresh_name (Endpoint.stt_files sv) :: Endpoint.stt_files sv
      /\ ~ In (Endpoint.fresh_name (Endpoint.stt_files sv)) (Endpoint.stt_files sv)
  end.
Proof.
  unfold Endpoint.transcribe_plain, Endpoint.create_temp, Endpoint.unlink.
  rewrite exists_created, remove_created.
  destruct (model (Stt.transcribe form_language)) as [[text language]| |msg];
    cbn [Endpoint.stt_files].
  - split; [eexists; reflexivity|reflexivity].
  - split; [eexists; reflexivity|]. split; [reflexivity|].
    apply fresh_name_new.
  - split; [eexists; reflexivity|]. split; [reflexivity|].
    apply fresh_name_new.
Qed.

Section Speech.
Context {A : Type}.
Variable preprocess : str -> str.
Variable postprocess : list A -> result (list A).
Variable model : str -> outcome (list A).

Lemma speak_asks_once (text : str) (sv : Endpoint.service) :
  Endpoint.spoken (snd (Endpoint.speak preprocess postprocess model text sv))
  = Endpoint.spoken sv ++ [preprocess text].
Proof.
  unfold Endpoint.speak, Endpoint.create_temp.
  destruct (model (preprocess text)) as [audio| |msg]; [|reflexivity..].
  destruct (postprocess audio); reflexivity.
Qed.

Lemma speak_files (text : str) (sv : Endpoint.service) :
  match fst (Endpoint.speak preprocess postprocess model text sv) with
  | Endpoint.Wav name _ _ =>
      ~ In name (Endpoint.temp_files sv)
      /\ Endpoint.temp_files (snd (Endpoint.speak preprocess postprocess model text sv))
         = name :: Endpoint.temp_files sv
  | _ => Endpoint.temp_files (snd (Endpoint.speak preprocess postprocess model text sv))
         = Endpoint.temp_files sv
  end.
Proof.
  unfold Endpoint.speak, Endpoint.create_temp.
  destruct (model (preprocess text)) as [audio| |msg]; [|reflexivity..].
  destruct (postprocess audio); [|reflexivity]. cbn.
  split; [apply fresh_name_new|reflexivity].
Qed.

Lemma text_to_speech_choice (input text : option str) (sv : Endpoint.service) :
  let run := Endpoint.text_to_speech preprocess postprocess model input text sv in
  match input, text with
  | Some (c :: t), _ =>
      Endpoint.spoken (snd run) = Endpoint.spoken sv ++ [preprocess (c :: t)]
  | _, Some (c :: t) =>
      Endpoint.spoken (snd run) = Endpoint.spoken sv ++ [preprocess (c :: t)]
  | _, _ => run = (Endpoint.NoText, sv)
  end.
Proof.
  cbv zeta. unfold Endpoint.text_to_speech, Endpoint.or_else.
  destruct input as [[|c t]|]; cbn [Endpoint.truthy];
    [| apply speak_asks_once |];
    (destruct text as [[|c' t']|]; [reflexivity|apply speak_asks_once
                                   |reflexivity]).
Qed.

Lemma text_to_speech_files (input text : option str) (sv : Endpoint.service) :
  let run := Endpoint.text_to_speech preprocess postprocess model input text sv in
  match fst run with
  | Endpoint.Wav name _ _ =>
      ~ In name (Endpoint.temp_files sv)
      /\ Endpoint.temp_files (snd run) = name :: Endpoint.temp_files sv
  | _ => Endpoint.temp_files (snd run) = Endpoint.temp_files sv
  end.
Proof.
  cbv zeta. unfold Endpoint.text_to_speech.
  destruct (Endpoint.or_else input text) as [[|c t]|]; [reflexivity| |reflexivity].
  apply speak_files.
Qed.

End Speech.

(** X23.  In the soft-voice and in the upgraded server the text spoken
    is the field [input] when it is a non-empty text, else the field
    [text] when that is one; with neither, the request is rejected and
    nothing is asked of the model. *)
Theorem speech_text_choice {A : Type} `{Arith A} (cc : charclass)
    (resample : list A -> nat -> list A) (sosfilt : Z -> list A -> list A)
    (tanh : A -> A) (model : str -> outcome (list A))
    (input text : option str) (sv : Endpoint.service) :
  let soft :=
    Endpoint.synthesize_soft_female cc resample sosfilt tanh model
      input text sv in
  let upgraded := Endpoint.synthesize_upgraded cc model input text sv in
  match input, text with
  | Some (c :: t), _ =>
      Endpoint.spoken (snd soft)
      = Endpoint.spoken sv ++ [SoftFemale.preprocess_russian_text cc (c :: t)]
      /\ Endpoint.spoken (snd upgraded)
         = Endpoint.spoken sv
           ++ [Upgraded.preprocess_russian_text cc (c :: t)]
  | _, Some (c :: t) =>
      Endpoint.spoken (snd soft)
      = Endpoint.spoken sv ++ [SoftFemale.preprocess_russian_text cc (c :: t)]
      /\ Endpoint.spoken (snd upgraded)
         = Endpoint.spoken sv
           ++ [Upgraded.preprocess_russian_text cc (c :: t)]
  | _, _ =>
      soft = (Endpoint.NoText, sv) /\ upgraded = (Endpoint.NoText, sv)
  end.
Proof.
  cbv zeta. unfold Endpoint.synthesize_soft_female,
    Endpoint.synthesize_upgraded.
  pose proof (text_to_speech_choice
                (SoftFemale.preprocess_russian_text cc)
                (synthesize_postprocess resample sosfilt tanh) model
                input text sv) as Hs.
  pose proof (text_to_speech_choice
                (Upgraded.preprocess_russian_text cc)
                Endpoint.normalize_unit model input text sv) as Hu.
  cbv zeta in Hs, Hu.
  destruct input as [[|c t]|]; destruct text as [[|c' t']|]; now split.
Qed.

(** X24.  A text of whitespace only passes the check of both handlers,
    and the model is asked to speak the empty text. *)
Theorem blank_text_spoken_as_empty {A : Type} `{Arith A} (cc : charclass)
    (resample : list A -> nat -> list A) (sosfilt : Z -> list A -> list A)
    (tanh : A -> A) (model : str -> outcome (list A))
    (c : char) (t : str) (text : option str) (sv : Endpoint.service) :
  blank cc (c :: t) ->
  Endpoint.spoken
    (snd (Endpoint.synthesize_soft_female cc resample sosfilt tanh model
            (Some (c :: t)) text sv))
  = Endpoint.spoken sv ++ [[]]
  /\ Endpoint.spoken
       (snd (Endpoint.synthesize_upgraded cc model (Some (c :: t)) text sv))
     = Endpoint.spoken sv ++ [[]].
Proof.
  intros Hb. apply strip_nil in Hb.
  unfold Endpoint.synthesize_soft_female, Endpoint.synthesize_upgraded,
    Endpoint.text_to_speech. cbn [Endpoint.or_else Endpoint.truthy].
  rewrite !speak_asks_once.
  unfold SoftFemale.preprocess_russian_text,
    Upgraded.preprocess_russian_text.
  rewrite Hb. split; reflexivity.
Qed.

(** Two spaces. *)
Lemma blank_text_spoken_as_empty_witness :
  Endpoint.spoken
    (snd (Endpoint.synthesize_soft_female basic decimate pass_through
            softsign Endpoint.mute (Some [32; 32]%N) None Endpoint.idle))
  = [] ++ [[]]
  /\ Endpoint.spoken
       (snd (Endpoint.synthesize_upgraded basic Endpoint.mute
               (Some [32; 32]%N) None Endpoint.idle))
     = [] ++ [[]].
Proof.
  apply (blank_text_spoken_as_empty basic decimate pass_through softsign
           Endpoint.mute 32%N [32]%N None Endpoint.idle).
  repeat constructor.
Defined.

(** X25.  Every answer that carries audio leaves its WAV file on disk,
    under a name that was not in use; a request that is rejected, or
    that fails in the model or in the arithmetic on the waveform, leaves
    the temporary directory as it was.  This holds for the soft-voice,
    the upgraded and the optimised server. *)
Theorem speech_files_stay {A : Type} `{Arith A} (cc : charclass)
    (resample : list A -> nat -> list A) (sosfilt : Z -> list A -> list A)
    (tanh : A -> A) (model : str -> outcome (list A))
    (guarded : str -> nat -> outcome (list A))
    (input text : option str) (sv : Endpoint.service)
    (d : Endpoint.disk) (st : state) :
  let soft :=
    Endpoint.synthesize_soft_female cc resample sosfilt tanh model
      input text sv in
  let upgraded := Endpoint.synthesize_upgraded cc model input text sv in
  let optimized := Endpoint.synthesize_optimized cc guarded input d st in
  match fst soft with
  | Endpoint.Wav name _ _ =>
      ~ In name (Endpoint.temp_files sv)
      /\ Endpoint.temp_files (snd soft) = name :: Endpoint.temp_files sv
  | _ => Endpoint.temp_files (snd soft) = Endpoint.temp_files sv
  end
  /\ match fst upgraded with
     | Endpoint.Wav name _ _ =>
         ~ In name (Endpoint.temp_files sv)
         /\ Endpoint.temp_files (snd upgraded)
            = name :: Endpoint.temp_files sv
     | _ => Endpoint.temp_files (snd upgraded) = Endpoint.temp_files sv
     end
  /\ match fst (fst optimized) with
     | Endpoint.Wav name _ _ =>
         ~ In name d /\ snd (fst optimized) = name :: d
     | _ => snd (fst optimized) = d
     end.
Proof.
  cbv zeta. split; [|split].
  - apply text_to_speech_files.
  - apply text_to_speech_files.
  - unfold Endpoint.synthesize_optimized, Endpoint.create_temp.
    destruct input as [[|c t]|]; [reflexivity| |reflexivity].
    destruct (generate_speech cc guarded (c :: t) st) as [[speech|e] st'];
      cbn [fst snd]; [|reflexivity].
    split; [apply fresh_name_new|reflexivity].
Qed.

(** X26.  The optimised speech endpoints reject an absent or empty text
    before the guard is entered: no model call, no sweep.  Any other
    text reaches the model once, cleaned by the preprocessor. *)
Theorem synthesize_optimized_validation {A : Type} (cc : charclass)
    (model : str -> nat -> outcome (list A)) (field : option str)
    (d : Endpoint.disk) (st : state) :
  let '(response, d', st') :=
    Endpoint.synthesize_optimized cc model field d st in
  match field with
  | Some (c :: t) =>
      response <> Endpoint.NoText
      /\ calls st' = S (calls st)
      /\ exists handler,
           trace st'
           = trace st ++ ModelCall (model_name st) None
               :: handler ++ sweep_events (cuda_available st)
  | _ => response = Endpoint.NoText /\ d' = d /\ st' = st
  end.
Proof.
  unfold Endpoint.synthesize_optimized, Endpoint.create_temp.
  destruct field as [[|c t]|]; [now repeat split| |now repeat split].
  unfold generate_speech.
  set (m := model (Optimized.preprocess_russian_text cc (c :: t))).
  destruct (guarded_trace m (fun speech => speech) None st) as (h & Hh).
  pose proof (guarded_state m (fun speech => speech) None st) as Hc.
  cbv zeta in Hc. destruct Hc as (Hc & _).
  destruct (gpu_memory_manager _ st) as [[speech|e] st'];
    cbn [fst snd] in *;
    (split; [discriminate|]; split; [exact Hc|eexists; exact Hh]).
Qed.
